(** * ssm-loader: the parameter resolution pipeline

    A shallow embedding of [ssm-loader.go]: the paginated fetcher
    ([getParameters]), the precedence merger ([getOSEnv], [AddParams]), the
    interpolation resolver ([ReplaceInterpolations]), the flattening
    ([StringArray]) and the three revisions of the driver [main]. *)

From Stdlib Require Import ZArith Ascii String List Lia.
From stdpp Require Import base option list strings gmap fin_maps.

Local Open Scope string_scope.
Local Open Scope Z_scope.
Local Open Scope list_scope.

(** ** Strings

    Go strings are byte sequences; [string] is a list of [ascii] bytes. The
    helpers below are the functions of package [strings] that the program
    calls, for the one-byte separators and cut sets it passes. *)

Module strings.

(** [strings.SplitN(s, sep, 2)] for a one-byte [sep]: the text before the
    first separator and the text after it, or [s] alone when there is no
    separator. *)
Fixpoint SplitN2 (s : string) (sep : ascii) : list string :=
  match s with
  | EmptyString => [EmptyString]
  | String c s' =>
      if Ascii.eqb c sep then [EmptyString; s']
      else match SplitN2 s' sep with
           | h :: t => String c h :: t
           | [] => [String c EmptyString]
           end
  end.

(** [strings.Split(s, sep)] for a one-byte [sep]: all the segments, always
    at least one. *)
Fixpoint Split (s : string) (sep : ascii) : list string :=
  match s with
  | EmptyString => [EmptyString]
  | String c s' =>
      if Ascii.eqb c sep then EmptyString :: Split s' sep
      else match Split s' sep with
           | h :: t => String c h :: t
           | [] => [String c EmptyString]
           end
  end.

Fixpoint TrimLeft (s : string) (cut : ascii) : string :=
  match s with
  | EmptyString => EmptyString
  | String c s' => if Ascii.eqb c cut then TrimLeft s' cut else s
  end.

Fixpoint TrimRight (s : string) (cut : ascii) : string :=
  match s with
  | EmptyString => EmptyString
  | String c s' =>
      match TrimRight s' cut with
      | EmptyString => if Ascii.eqb c cut then EmptyString else String c EmptyString
      | r => String c r
      end
  end.

(** [strings.Trim(s, cutset)] for a one-byte [cutset]. *)
Definition Trim (s : string) (cut : ascii) : string :=
  TrimRight (TrimLeft s cut) cut.

(** [strings.Contains]-like test for one byte. *)
Fixpoint ContainsByte (s : string) (c : ascii) : bool :=
  match s with
  | EmptyString => false
  | String a s' => Ascii.eqb a c || ContainsByte s' c
  end.

Fixpoint take (n : nat) (s : string) : string :=
  match n, s with
  | S n', String c s' => String c (take n' s')
  | _, _ => EmptyString
  end.

End strings.

(** ** Regular expressions

    The fragment of package [regexp] that [paramInterpolation] uses:
    literal bytes, [.] (any byte but a newline), concatenation and the greedy
    star. Matching is leftmost-first, as Go documents it: at a start position
    the alternatives are tried in the order a backtracking matcher tries
    them, so a greedy star takes as many repetitions as still let the rest of
    the pattern match.

    The model works on bytes while Go decodes UTF-8 runes. For the pattern of
    this program the matches are the same: ['%'] and the newline are one-byte
    runes that never occur inside a longer one, so every position where
    [%%] can match is a rune boundary that [.*] can stop at. *)

Module regexp.

Inductive Regexp : Type :=
| Lit (c : ascii)
| Dot
| Cat (r1 r2 : Regexp)
| Star (r : Regexp).

Definition newline : ascii := Ascii.ascii_of_nat 10.

(** The greedy star over a one-step matcher [step]: one more repetition
    first, the continuation [k] only when that fails. A repetition that
    consumes nothing is not taken again; [fuel] is the length of the text,
    which bounds the number of repetitions. *)
Fixpoint starK (step : string -> (string -> option nat) -> option nat)
    (k : string -> option nat) (fuel : nat) (s : string) : option nat :=
  match fuel with
  | O => k s
  | S fuel' =>
      match step s (fun s' =>
                      if (String.length s' <? String.length s)%nat
                      then starK step k fuel' s' else None) with
      | Some n => Some n
      | None => k s
      end
  end.

(** [matchK r s k]: match [r] at the head of [s], then hand the rest to the
    continuation [k]; the result is the number of bytes consumed by the
    first alternative that succeeds. *)
Fixpoint matchK (r : Regexp) (s : string) (k : string -> option nat)
  : option nat :=
  match r with
  | Lit c =>
      match s with
      | String a s' => if Ascii.eqb a c then S <$> k s' else None
      | EmptyString => None
      end
  | Dot =>
      match s with
      | String a s' => if Ascii.eqb a newline then None else S <$> k s'
      | EmptyString => None
      end
  | Cat r1 r2 => matchK r1 s (fun s' => matchK r2 s' k)
  | Star r' => starK (matchK r') k (String.length s) s
  end.

(** Length of the match of [r] that starts at the head of [s], if any. *)
Definition matchHere (r : Regexp) (s : string) : option nat :=
  matchK r s (fun _ => Some O).

(** [re.MatchString(s)]: does [r] match somewhere in [s]. *)
Fixpoint MatchString (r : Regexp) (s : string) : bool :=
  match matchHere r s with
  | Some _ => true
  | None => match s with
            | EmptyString => false
            | String _ s' => MatchString r s'
            end
  end.

(** The loop of [re.ReplaceAllStringFunc]: [skip] counts the bytes of the
    current match still to be dropped, [afterMatch] tells that a match
    ended exactly here (Go ignores an empty match that abuts the previous
    match). *)
Fixpoint replaceFrom (r : Regexp) (repl : string -> string) (s : string)
    (skip : nat) (afterMatch : bool) : string :=
  match s with
  | EmptyString =>
      match skip, matchHere r EmptyString with
      | O, Some O => if afterMatch then EmptyString else repl EmptyString
      | _, _ => EmptyString
      end
  | String c s' =>
      match skip with
      | S skip' => replaceFrom r repl s' skip' true
      | O =>
          match matchHere r s with
          | Some (S n) =>
              repl (strings.take (S n) s) +:+ replaceFrom r repl s' n true
          | Some O =>
              (if afterMatch then EmptyString else repl EmptyString)
                +:+ String c (replaceFrom r repl s' O false)
          | None => String c (replaceFrom r repl s' O false)
          end
      end
  end.

(** [re.ReplaceAllStringFunc(src, repl)]: a copy of [src] in which every
    match of [r], found left to right without overlap, is replaced by
    [repl] applied to the matched text. *)
Definition ReplaceAllStringFunc (r : Regexp) (src : string)
    (repl : string -> string) : string :=
  replaceFrom r repl src O false.

End regexp.

Import regexp.

(** [var paramInterpolation = regexp.MustCompile(...)] with the pattern
    percent percent, a capture group around dot-star, percent percent. The
    star is the greedy one. The capture group does not change what matches,
    and the callback of [ReplaceAllStringFunc] only sees the whole match. *)
Definition paramInterpolation : Regexp :=
  Cat (Lit "%") (Cat (Lit "%") (Cat (Star Dot) (Cat (Lit "%") (Lit "%")))).

(** What the greedy dot-star of the pattern does, by recursion on the text:
    the function the matcher is compared with. *)
Fixpoint greedyDot (k : string -> option nat) (s : string) : option nat :=
  match s with
  | EmptyString => k EmptyString
  | String a s' =>
      if Ascii.eqb a newline then k s
      else match S <$> greedyDot k s' with
           | Some n => Some n
           | None => k s
           end
  end.

(** The closing delimiter of [paramInterpolation], as a continuation. *)
Definition closing : string -> option nat :=
  fun s => matchK (Cat (Lit "%") (Lit "%")) s (fun _ => Some O).

(** ** The namespace *)

(** [type paramMap map[string]string] *)
Abbreviation paramMap := (gmap string string).

(** [ssm.Parameter], with the two fields the program reads. The SDK hands
    them out as pointers; the store fills both for every parameter. *)
Record ssm_Parameter : Type := { Name : string; Value : string }.

(** A [for ... range m] loop visits every key of [m] once, in an order Go
    leaves unspecified; [order] is one such order. *)
Definition rangeOrder (m : paramMap) (order : list string) : Prop :=
  NoDup order ∧ list_to_set order = dom m.

(** [getOSEnv], on the list that [os.Environ()] returns. [None] is the
    index-out-of-range panic of [pair[1]] on an entry without ['=']. *)
Definition getOSEnv (environ : list string) : option paramMap :=
  foldl (fun acc e =>
           m ← acc;
           let pair := strings.SplitN2 e "=" in
           k ← pair !! 0%nat;
           v ← pair !! 1%nat;
           Some (<[k := v]> m))
        (Some ∅) environ.

(** The key under which [AddParams] files a parameter:
    the last element of [strings.Split] of the hierarchical name at the slash. *)
Definition bareName (param : ssm_Parameter) : string :=
  let ss := strings.Split (Name param) "/" in
  default "" (last ss).

(** The body of the loop of [AddParams]. *)
Definition addParam (m : paramMap) (param : ssm_Parameter) : paramMap :=
  let name := bareName param in
  match m !! name with
  | Some _ => m
  | None => <[name := Value param]> m
  end.

(** [func (m paramMap) AddParams(params []*ssm.Parameter)] *)
Definition AddParams (m : paramMap) (params : list ssm_Parameter) : paramMap :=
  foldl addParam m params.

(** The callback that [ReplaceInterpolations] passes to
    [ReplaceAllStringFunc]: looks the trimmed match up in [m]. *)
Definition lookupVar (m : paramMap) (s : string) : string :=
  let varName := strings.Trim s "%" in
  match m !! varName with
  | Some replacement => replacement
  | None => ""
  end.

(** The rewritten value [replaced] of one loop iteration. *)
Definition interpolate (m : paramMap) (value : string) : string :=
  ReplaceAllStringFunc paramInterpolation value (lookupVar m).

(** The body of the loop of [ReplaceInterpolations] for the key [key]: its
    value is rewritten against the map as it stands and stored back. *)
Definition interpStep (m : paramMap) (key : string) : paramMap :=
  match m !! key with
  | Some value => <[key := interpolate m value]> m
  | None => m
  end.

(** [func (m paramMap) ReplaceInterpolations()], visiting the keys in
    [order]. The map is rewritten in place: the lookup of a later iteration
    sees the values that earlier iterations stored. *)
Definition ReplaceInterpolations_in (order : list string) (m : paramMap)
  : paramMap :=
  foldl interpStep m order.

(** [ReplaceInterpolations] as a relation between the namespace before the
    call and after it, whatever order the loop takes. *)
Definition ReplaceInterpolations (m m' : paramMap) : Prop :=
  exists order, rangeOrder m order /\ m' = ReplaceInterpolations_in order m.

(** [fmt.Sprintf("%s=%s", k, v)] *)
Definition entryLine (kv : string * string) : string :=
  kv.1 +:+ "=" +:+ kv.2.

(** [func (m paramMap) StringArray() []string], visiting the keys in
    [order]. *)
Definition StringArray_in (order : list string) (m : paramMap) : list string :=
  omap (fun k => (fun v => entryLine (k, v)) <$> m !! k) order.

(** [StringArray] as a relation between the namespace and the list
    returned, whatever order the loop takes. *)
Definition StringArray (m : paramMap) (list : list string) : Prop :=
  exists order, rangeOrder m order /\ list = StringArray_in order m.

(** [pair[0]] and [pair[1]] of an entry of the environment. *)
Definition envName (e : string) : string :=
  default "" (strings.SplitN2 e "=" !! 0%nat).

Definition envValue (e : string) : string :=
  default "" (strings.SplitN2 e "=" !! 1%nat).

(** ** Effects

    The program talks to the parameter store, sleeps, prints, starts a child
    and exits. A run is a function from the trace of events so far to a
    result and the extended trace. *)

(** The text of a Go [error] (what [err.Error()] returns). *)
Definition error : Type := string.

(** [ssm.GetParametersByPathInput], the fields the program sets. *)
Record ssm_GetParametersByPathInput : Type := {
  req_Path : string;
  req_NextToken : option string;
  req_Recursive : bool;
  req_MaxResults : Z;
  req_WithDecryption : bool
}.

(** [ssm.GetParametersByPathOutput], the fields the program reads. *)
Record ssm_GetParametersByPathOutput : Type := {
  Parameters : list ssm_Parameter;
  resp_NextToken : option string
}.

(** The client [*ssm.SSM]: what [GetParametersByPath] answers to a request. *)
Definition ssm_SSM : Type :=
  ssm_GetParametersByPathInput -> ssm_GetParametersByPathOutput + error.

Inductive event : Type :=
| Sleep (d : Z)
| GetParametersByPath (input : ssm_GetParametersByPathInput)
| Stdout (line : string)
| Stderr (line : string)
| Start (name : string) (argv : list string) (env : list string)
| Wait.

Inductive result (A : Type) : Type :=
| Ret (a : A)
| Exit (code : Z)
| Panic (msg : string)
| OutOfFuel.
Arguments Ret {A} a.
Arguments Exit {A} code.
Arguments Panic {A} msg.
Arguments OutOfFuel {A}.

Definition IO (A : Type) : Type := list event -> result A * list event.

#[global] Instance IO_ret : MRet IO := fun A a tr => (Ret a, tr).

#[global] Instance IO_bind : MBind IO := fun A B f m tr =>
  match m tr with
  | (Ret a, tr') => f a tr'
  | (Exit code, tr') => (Exit code, tr')
  | (Panic msg, tr') => (Panic msg, tr')
  | (OutOfFuel, tr') => (OutOfFuel, tr')
  end.

Definition emit (e : event) : IO unit := fun tr => (Ret tt, tr ++ [e]).

(** [os.Exit(code)] *)
Definition os_Exit {A : Type} (code : Z) : IO A := fun tr => (Exit code, tr).

(** A run-time panic. *)
Definition panic {A : Type} (msg : string) : IO A := fun tr => (Panic msg, tr).

Definition outOfFuel {A : Type} : IO A := fun tr => (OutOfFuel, tr).

(** [time.Millisecond], in nanoseconds. *)
Definition time_Millisecond : Z := 1000000.

(** [time.Sleep(d)] *)
Definition time_Sleep (d : Z) : IO unit := emit (Sleep d).

(** [fmt.Println(a)] *)
Definition fmt_Println (a : string) : IO unit := emit (Stdout a).

(** [fmt.Println(a, b)]: the operands separated by a space. *)
Definition fmt_Println2 (a b : string) : IO unit :=
  emit (Stdout (a +:+ " " +:+ b)).

(** [log.Fatalln(a)]: the line goes to standard error, then [os.Exit(1)]. *)
Definition log_Fatalln {A : Type} (a : string) : IO A :=
  emit (Stderr a) ;; os_Exit 1.

(** [log.Fatalln(a, b)] *)
Definition log_Fatalln2 {A : Type} (a b : string) : IO A :=
  emit (Stderr (a +:+ " " +:+ b)) ;; os_Exit 1.

(** [client.GetParametersByPath(input)] *)
Definition call_GetParametersByPath (client : ssm_SSM)
    (input : ssm_GetParametersByPathInput)
  : IO (ssm_GetParametersByPathOutput + error) :=
  emit (GetParametersByPath input) ;; mret (client input).

(** The exit status the operating system sees: [main] returning is 0, a Go
    panic is 2. *)
Definition exitStatus {A : Type} (r : result A) : option Z :=
  match r with
  | Ret _ => Some 0
  | Exit code => Some code
  | Panic _ => Some 2
  | OutOfFuel => None
  end.

(** ** The paginated fetcher *)

(** Go's [int] on the 64-bit targets the release builds for. *)
Definition int_add (a b : Z) : Z := (a + b + 2 ^ 63) mod 2 ^ 64 - 2 ^ 63.

Record getParametersInput : Type := {
  Client : ssm_SSM;
  Path : string;
  NextToken : option string;
  FetchedParams : list ssm_Parameter
}.

Definition isNil {A : Type} (p : option A) : bool :=
  match p with None => true | Some _ => false end.

(** [func getParameters(params *getParametersInput, itr int)]. The Go
    function calls itself once per page; [fuel] bounds the depth. The result
    is the pair the Go function returns: the parameters and the error. *)
Fixpoint getParameters (fuel : nat) (params : getParametersInput) (itr : Z)
  : IO (list ssm_Parameter * option error) :=
  match fuel with
  | O => outOfFuel
  | S fuel' =>
      if negb (itr =? 0) && isNil (NextToken params) then
        mret (FetchedParams params, None)
      else
        time_Sleep (100 * time_Millisecond) ;;
        r ← call_GetParametersByPath (Client params)
              {| req_Path := Path params;
                 req_NextToken := NextToken params;
                 req_Recursive := false;
                 req_MaxResults := 10;
                 req_WithDecryption := true |};
        match r with
        | inr err => mret ([], Some err)
        | inl result =>
            getParameters fuel'
              {| Client := Client params;
                 Path := Path params;
                 NextToken := resp_NextToken result;
                 FetchedParams := FetchedParams params ++ Parameters result |}
              (int_add itr 1)
        end
  end.

(** The first call of [getParameters] in [main]. *)
Definition firstCall (client : ssm_SSM) (path : string) : getParametersInput :=
  {| Client := client; Path := path; NextToken := None; FetchedParams := [] |}.

(** The request that [getParameters] sends for [path] with cursor [tok]. *)
Definition request (path : string) (tok : option string)
  : ssm_GetParametersByPathInput :=
  {| req_Path := path;
     req_NextToken := tok;
     req_Recursive := false;
     req_MaxResults := 10;
     req_WithDecryption := true |}.

(** [session client path tok toks pages r]: queried for [path] from the
    cursor [tok] on, the store answers the requests with cursors [toks], in
    this order, with the pages [pages]; the last answer either carries no
    cursor ([r] is [None]) or is the error [r]. *)
Inductive session (client : ssm_SSM) (path : string)
  : option string -> list (option string) -> list (list ssm_Parameter)
    -> option error -> Prop :=
| session_fail tok err :
    client (request path tok) = inr err ->
    session client path tok [tok] [] (Some err)
| session_last tok out :
    client (request path tok) = inl out ->
    resp_NextToken out = None ->
    session client path tok [tok] [Parameters out] None
| session_more tok out next toks pages r :
    client (request path tok) = inl out ->
    resp_NextToken out = Some next ->
    session client path (Some next) toks pages r ->
    session client path tok (tok :: toks) (Parameters out :: pages) r.

(** The events of a session: the pacing delay, then the request, for every
    cursor. *)
Definition fetchTrace (path : string) (toks : list (option string))
  : list event :=
  toks ≫= fun tok =>
    [Sleep (100 * time_Millisecond); GetParametersByPath (request path tok)].

(** ** The driver *)

(** What a run of [main] finds around it: the environment and the arguments
    of the process, the store behind the client, the orders in which the two
    [range] loops over the namespace happen to visit it, and what starting
    and awaiting the child yields (the errors of [cmd.Start()] and
    [cmd.Wait()]). Creating the session is taken to succeed. *)
Record World : Type := {
  os_Environ : list string;
  os_Args : list string;
  svc : ssm_SSM;
  rangeInterpolations : paramMap -> list string;
  rangeStringArray : paramMap -> list string;
  child : string -> list string -> list string -> option error * option error
}.

(** [os.Getenv(key)]: the value of the first entry for [key], or the empty
    string. *)
Fixpoint os_Getenv (environ : list string) (key : string) : string :=
  match environ with
  | [] => ""
  | e :: environ' =>
      match strings.SplitN2 e "=" with
      | [k; v] => if String.eqb k key then v else os_Getenv environ' key
      | _ => os_Getenv environ' key
      end
  end.

(** [func contains(a []string, x string) bool] *)
Fixpoint contains (a : list string) (x : string) : bool :=
  match a with
  | [] => false
  | n :: a' => if String.eqb x n then true else contains a' x
  end.

(** [paramMap := getOSEnv()] inside a run. *)
Definition run_getOSEnv (w : World) : IO paramMap :=
  match getOSEnv (os_Environ w) with
  | Some m => mret m
  | None => panic "index out of range"
  end.

(** [args := os.Args[1:]] *)
Definition run_args (w : World) : IO (list string) :=
  match os_Args w with
  | [] => panic "slice bounds out of range"
  | _ :: args => mret args
  end.

Definition sharedPath (appEnv : string) : string := "/" +:+ appEnv +:+ "/".

Definition appPath (appEnv appName : string) : string :=
  "/" +:+ appEnv +:+ "/" +:+ appName +:+ "/".

Definition nonEmpty (s : string) : bool := negb (String.eqb s "").

(** The revision of [main] in [src/unnamed/part_000]: errors of the fetches
    are printed to standard output before [os.Exit(1)], the arguments are not
    checked, the errors of the child are dropped. *)
Module Bare.

Definition main (fuel : nat) (w : World) : IO unit :=
  let appName := os_Getenv (os_Environ w) "APP_NAME" in
  let appEnv := os_Getenv (os_Environ w) "APP_ENV" in
  paramMap ← run_getOSEnv w;
  let appEnv :=
    if String.eqb appEnv "" then os_Getenv (os_Environ w) "WORKPATH_ENV"
    else appEnv in
  allParams ←
    (if nonEmpty appEnv then
       r ← getParameters fuel
             {| Client := svc w; Path := sharedPath appEnv;
                NextToken := None; FetchedParams := [] |} 0;
       match r with
       | (_, Some sharedErr) =>
           fmt_Println2 "Error fetching shared params: " sharedErr ;;
           os_Exit 1
       | (sharedParams, None) => mret sharedParams
       end
     else mret []);
  allParams ←
    (if nonEmpty appName then
       r ← getParameters fuel
             {| Client := svc w; Path := appPath appEnv appName;
                NextToken := None; FetchedParams := [] |} 0;
       match r with
       | (_, Some appErr) =>
           fmt_Println2 "Error fetching app params: " appErr ;;
           os_Exit 1
       | (appParams, None) => mret (allParams ++ appParams)
       end
     else mret allParams);
  let paramMap := AddParams paramMap allParams in
  let paramMap :=
    ReplaceInterpolations_in (rangeInterpolations w paramMap) paramMap in
  args ← run_args w;
  match args with
  | [] => panic "index out of range"
  | name :: argv =>
      let env := StringArray_in (rangeStringArray w paramMap) paramMap in
      emit (Start name argv env) ;;
      emit Wait ;;
      mret tt
  end.

End Bare.

(** Starting and awaiting the child as the two later revisions do. *)
Definition run_child (w : World) (args : list string) (env : list string)
  : IO unit :=
  match args with
  | [] => panic "index out of range"
  | name :: argv =>
      emit (Start name argv env) ;;
      match child w name argv env with
      | (Some err, _) => log_Fatalln2 "Error while starting command: " err
      | (None, waitErr) =>
          emit Wait ;;
          match waitErr with
          | Some err => log_Fatalln2 "Command finished with err: " err
          | None => mret tt
          end
      end
  end.

(** The revision of [main] in the second text of [src/ssm-loader.go]:
    [log.Fatalln] on every error, and on an empty argument list. *)
Module Fatal.

Definition main (fuel : nat) (w : World) : IO unit :=
  let appName := os_Getenv (os_Environ w) "APP_NAME" in
  let appEnv := os_Getenv (os_Environ w) "APP_ENV" in
  paramMap ← run_getOSEnv w;
  let appEnv :=
    if String.eqb appEnv "" then os_Getenv (os_Environ w) "WORKPATH_ENV"
    else appEnv in
  allParams ←
    (if nonEmpty appEnv then
       r ← getParameters fuel
             {| Client := svc w; Path := sharedPath appEnv;
                NextToken := None; FetchedParams := [] |} 0;
       match r with
       | (_, Some sharedErr) =>
           log_Fatalln2 "Error fetching shared params: " sharedErr
       | (sharedParams, None) => mret sharedParams
       end
     else mret []);
  allParams ←
    (if nonEmpty appName then
       r ← getParameters fuel
             {| Client := svc w; Path := appPath appEnv appName;
                NextToken := None; FetchedParams := [] |} 0;
       match r with
       | (_, Some appErr) =>
           log_Fatalln2 "Error fetching app params: " appErr
       | (appParams, None) => mret (allParams ++ appParams)
       end
     else mret allParams);
  let paramMap := AddParams paramMap allParams in
  let paramMap :=
    ReplaceInterpolations_in (rangeInterpolations w paramMap) paramMap in
  args ← run_args w;
  if (length args =? 0)%nat then
    log_Fatalln "ssm-loader requires a command to run"
  else
    run_child w args (StringArray_in (rangeStringArray w paramMap) paramMap).

End Fatal.

(** The revision of [main] in the first text of [src/ssm-loader.go], the
    fuller one: usage on [-h], [--help] or no argument, the list on [-O]. *)
Module Fuller.

Definition usage : list string :=
  [ "Loads parameters from the SSM Parameter Store";
    "";
    "Usage:";
    "  ssm-loader [options] [command]";
    "";
    "Environment variables:";
    "  APP_ENV (WORKPATH_ENV): The application's environment";
    "  APP_NAME (optional): The name of the application";
    "";
    "Options:";
    "  --help (-h): Shows this output";
    "  -O: Prints the env to stdout (i.e. can combine with other commands [i.e. `export $(ssm-loader -O)`])" ].

(** A [for] loop of [fmt.Println] over [lines]. *)
Fixpoint printAll (lines : list string) : IO unit :=
  match lines with
  | [] => mret tt
  | l :: lines' => fmt_Println l ;; printAll lines'
  end.

Definition main (fuel : nat) (w : World) : IO unit :=
  let appName := os_Getenv (os_Environ w) "APP_NAME" in
  let appEnv := os_Getenv (os_Environ w) "APP_ENV" in
  paramMap ← run_getOSEnv w;
  let appEnv :=
    if String.eqb appEnv "" then os_Getenv (os_Environ w) "WORKPATH_ENV"
    else appEnv in
  allParams ←
    (if nonEmpty appEnv then
       r ← getParameters fuel
             {| Client := svc w; Path := sharedPath appEnv;
                NextToken := None; FetchedParams := [] |} 0;
       match r with
       | (_, Some sharedErr) =>
           log_Fatalln2 "Error fetching shared params: " sharedErr
       | (sharedParams, None) => mret sharedParams
       end
     else mret []);
  allParams ←
    (if nonEmpty appName then
       r ← getParameters fuel
             {| Client := svc w; Path := appPath appEnv appName;
                NextToken := None; FetchedParams := [] |} 0;
       match r with
       | (_, Some appErr) =>
           log_Fatalln2 "Error fetching app params: " appErr
       | (appParams, None) => mret (allParams ++ appParams)
       end
     else mret allParams);
  let paramMap := AddParams paramMap allParams in
  let paramMap :=
    ReplaceInterpolations_in (rangeInterpolations w paramMap) paramMap in
  args ← run_args w;
  if (length args =? 0)%nat || contains args "-h" || contains args "--help"
  then printAll usage ;; os_Exit 0
  else if contains args "-O" then
    printAll (StringArray_in (rangeStringArray w paramMap) paramMap) ;;
    os_Exit 0
  else
    run_child w args (StringArray_in (rangeStringArray w paramMap) paramMap).

End Fuller.

(** ** The runs of the driver, in terms of the scopes *)

(** The environment name and the application name that [main] settles on. *)
Definition appEnvOf (w : World) : string :=
  let appEnv := os_Getenv (os_Environ w) "APP_ENV" in
  if String.eqb appEnv "" then os_Getenv (os_Environ w) "WORKPATH_ENV"
  else appEnv.

Definition appNameOf (w : World) : string :=
  os_Getenv (os_Environ w) "APP_NAME".

(** [scope client enabled path tr params r n]: what fetching one scope
    amounts to. A scope that is not configured is not fetched; a configured
    one runs a session from the first request on, leaves the events [tr],
    and yields the parameters [params] or the error [r]; [n] calls of
    [getParameters] are needed. *)
Inductive scope (client : ssm_SSM) (enabled : bool) (path : string)
  : list event -> list ssm_Parameter -> option error -> nat -> Prop :=
| scope_skipped :
    enabled = false ->
    scope client enabled path [] [] None O
| scope_fetched toks pages r :
    enabled = true ->
    session client path None toks pages r ->
    Z.of_nat (length toks) < 2 ^ 63 ->
    scope client enabled path (fetchTrace path toks)
      (match r with Some _ => [] | None => concat pages end) r
      (S (length toks)).

Section Phase.

Context {X : Type}.
Variables (client : ssm_SSM) (enabled : bool) (path : string).
Variables (h : error -> IO X) (g : list ssm_Parameter -> IO X) (skip : IO X).

(** The shape both fetches of [main] have. *)
Definition phase (fuel : nat) : IO X :=
  if enabled then
    r ← getParameters fuel
          {| Client := client; Path := path; NextToken := None;
             FetchedParams := [] |} 0;
    match r with
    | (_, Some err) => h err
    | (params, None) => g params
    end
  else skip.

End Phase.

Section DriverText.

Variables (h1 h2 : error -> IO (list ssm_Parameter)).
Variable tail : paramMap -> list string -> IO unit.

(** The text the three revisions of [main] share: seed, fetch the two
    scopes, merge, resolve, read the arguments. They differ in how an
    error of a fetch is reported ([h1], [h2]) and in what follows
    ([tail]). *)
Definition driver (fuel : nat) (w : World) : IO unit :=
  paramMap ← run_getOSEnv w;
  allParams ←
    phase (svc w) (nonEmpty (appEnvOf w)) (sharedPath (appEnvOf w))
      h1 mret (mret []) fuel;
  allParams ←
    phase (svc w) (nonEmpty (appNameOf w))
      (appPath (appEnvOf w) (appNameOf w))
      h2 (fun appParams => mret (allParams ++ appParams)) (mret allParams)
      fuel;
  let paramMap := AddParams paramMap allParams in
  let paramMap :=
    ReplaceInterpolations_in (rangeInterpolations w paramMap) paramMap in
  args ← run_args w;
  tail paramMap args.

End DriverText.

(** The namespace that [main] ends up with. *)
Definition resolved (w : World) (seed : paramMap)
    (allParams : list ssm_Parameter) : paramMap :=
  ReplaceInterpolations_in
    (rangeInterpolations w (AddParams seed allParams))
    (AddParams seed allParams).

(** What each revision does once it has read the arguments. *)

Definition bareTail (w : World) (paramMap : gmap string string)
    (args : list string) : IO unit :=
  match args with
  | [] => panic "index out of range"
  | name :: argv =>
      let env := StringArray_in (rangeStringArray w paramMap) paramMap in
      emit (Start name argv env) ;; emit Wait ;; mret tt
  end.

Definition fatalTail (w : World) (paramMap : gmap string string)
    (args : list string) : IO unit :=
  if (length args =? 0)%nat then
    log_Fatalln "ssm-loader requires a command to run"
  else
    run_child w args (StringArray_in (rangeStringArray w paramMap) paramMap).

Definition fullerTail (w : World) (paramMap : gmap string string)
    (args : list string) : IO unit :=
  if (length args =? 0)%nat || contains args "-h" || contains args "--help"
  then Fuller.printAll Fuller.usage ;; os_Exit 0
  else if contains args "-O" then
    Fuller.printAll (StringArray_in (rangeStringArray w paramMap) paramMap) ;;
    os_Exit 0
  else
    run_child w args (StringArray_in (rangeStringArray w paramMap) paramMap).

(** ** A store for the examples

    [pagedStore entries] serves [entries] in pages of the requested size; the
    cursor of a page is the offset of its first entry, written in unary. *)

Definition unary (n : nat) : string :=
  string_of_list_ascii (replicate n "x"%char).

Definition pagedStore (entries : list ssm_Parameter) : ssm_SSM :=
  fun input =>
    let offset := match req_NextToken input with
                  | None => O
                  | Some t => String.length t
                  end in
    let size := Z.to_nat (req_MaxResults input) in
    inl {| Parameters := take size (drop offset entries);
           resp_NextToken :=
             if (offset + size <? length entries)%nat
             then Some (unary (offset + size)) else None |}.

(** A store whose every request fails. *)
Definition failingStore (err : error) : ssm_SSM := fun _ => inr err.

(** Twenty-five parameters for the examples. *)
Definition entries25 : list ssm_Parameter :=
  (fun i => {| Name := "/prod/K" +:+ unary i; Value := unary i |}) <$> seq 0 25.

(** A world for the examples: the environment names the scope [prod], the
    store holds one parameter, the loops visit the namespace in the order of
    [map_to_list], the child runs and succeeds. *)
Definition exampleWorld (args : list string) (store : ssm_SSM) : World :=
  {| os_Environ := ["APP_ENV=prod"; "FOO=local"];
     os_Args := "ssm-loader" :: args;
     svc := store;
     rangeInterpolations := fun m => (map_to_list m).*1;
     rangeStringArray := fun m => (map_to_list m).*1;
     child := fun _ _ _ => (None, None) |}.

Definition oneParam : list ssm_Parameter :=
  [ {| Name := "/prod/FOO"; Value := "remote" |} ].

(** ** Two claims of the specification, as it words them *)

(** C2 as the specification words it: in a run without arguments after the
    program name that comes to an end, the exit status is not zero and no
    request goes to the store. *)
Definition stopsBeforeFetching (main : nat -> World -> IO unit) : Prop :=
  forall w fuel prog r tr,
    os_Args w = [prog] ->
    main fuel w [] = (r, tr) ->
    r ≠ OutOfFuel ->
    (exists code, exitStatus r = Some code /\ code ≠ 0)
    /\ (forall input, GetParametersByPath input ∉ tr).

(** C4 as the specification words it: in the fuller revision, a run with
    [-h] or [--help] among its arguments that comes to an end has printed
    the usage text, ends with status 0 and has sent no request. *)
Definition helpSendsNoRequest : Prop :=
  forall w fuel prog args r tr,
    os_Args w = prog :: args ->
    contains args "-h" = true \/ contains args "--help" = true ->
    Fuller.main fuel w [] = (r, tr) ->
    r ≠ OutOfFuel ->
    r = Exit 0
    /\ (forall line, line ∈ Fuller.usage -> Stdout line ∈ tr)
    /\ (forall input, GetParametersByPath input ∉ tr).

(** ** A batch as a map

    The namespace that a batch amounts to on its own: every bare name with
    the value of the first parameter that carries it ([list_to_map] lets
    the first pair of a key win). *)
Definition batchMap (params : list ssm_Parameter) : paramMap :=
  list_to_map ((fun param => (bareName param, Value param)) <$> params).

(** * Properties *)

#[local] Arguments String.append : simpl nomatch.

(** ** The model on small inputs *)

Example Split_hierarchical_name :
  strings.Split "/prod/app/DB_HOST" "/" = [""; "prod"; "app"; "DB_HOST"].
Proof. reflexivity. Qed.

Example bareName_last_segment :
  bareName {| Name := "/prod/app/DB_HOST"; Value := "db" |} = "DB_HOST"
  /\ bareName {| Name := "DB_HOST"; Value := "db" |} = "DB_HOST"
  /\ bareName {| Name := "/prod/"; Value := "db" |} = "".
Proof. repeat split. Qed.

Example Trim_percent :
  strings.Trim "%%A%%" "%" = "A" /\ strings.Trim "%%%%" "%" = ""
  /\ strings.Trim "%a%b%" "%" = "a%b".
Proof. repeat split. Qed.

Example getOSEnv_entries :
  getOSEnv ["A=1"; "B=x=y"] = Some (<["B" := "x=y"]> {[ "A" := "1" ]})
  /\ getOSEnv ["A=1"; "B"] = None.
Proof. split; reflexivity. Qed.

Example interpolate_one_token :
  interpolate {[ "A" := "1" ]} "pre-%%A%%-post" = "pre-1-post".
Proof. vm_compute. reflexivity. Qed.

(** Tokens on different lines are matched one by one: the dot stops at the
    newline. *)
Example interpolate_two_lines :
  interpolate (<["A" := "1"]> {[ "B" := "2" ]})
    ("%%A%%" +:+ String newline "%%B%%")
  = "1" +:+ String newline "2".
Proof. vm_compute. reflexivity. Qed.

Example interpolate_no_token :
  interpolate {[ "A" := "1" ]} "50% off, 100%" = "50% off, 100%".
Proof. vm_compute. reflexivity. Qed.

(** The [-O] run of the fuller revision: the lines of the namespace on
    standard output, status 0, no child. *)
Example Fuller_main_prints_the_list :
  Fuller.main 1
    {| os_Environ := ["A=1"; "B=2"];
       os_Args := ["ssm-loader"; "-O"];
       svc := failingStore "unreachable";
       rangeInterpolations := fun m => (map_to_list m).*1;
       rangeStringArray := fun _ => ["B"; "A"];
       child := fun _ _ _ => (None, None) |} []
  = (Exit 0, [Stdout "B=2"; Stdout "A=1"]).
Proof. vm_compute. reflexivity. Qed.

(** A run with a command: the child is started with the flattened
    namespace, in which the environment wins over the store. *)
Example Fatal_main_starts_the_child :
  Fatal.main 2
    {| os_Environ := ["APP_ENV=prod"; "FOO=local"];
       os_Args := ["ssm-loader"; "env"; "-i"];
       svc := pagedStore [ {| Name := "/prod/FOO"; Value := "remote" |};
                           {| Name := "/prod/BAR"; Value := "%%FOO%%" |} ];
       rangeInterpolations := fun _ => ["APP_ENV"; "BAR"; "FOO"];
       rangeStringArray := fun _ => ["APP_ENV"; "BAR"; "FOO"];
       child := fun _ _ _ => (None, None) |} []
  = (Ret tt,
     [ Sleep (100 * time_Millisecond);
       GetParametersByPath (request "/prod/" None);
       Start "env" ["-i"] ["APP_ENV=prod"; "BAR=local"; "FOO=local"];
       Wait ]).
Proof. vm_compute. reflexivity. Qed.

(** ** The precedence merger *)

Section Merge.

Implicit Types (m : paramMap) (params : list ssm_Parameter).
Implicit Types (param : ssm_Parameter) (k v : string).

Lemma AddParams_nil m : AddParams m [] = m.
Proof. reflexivity. Qed.

Lemma AddParams_cons m param params :
  AddParams m (param :: params) = AddParams (addParam m param) params.
Proof. reflexivity. Qed.

Lemma AddParams_app m params1 params2 :
  AddParams m (params1 ++ params2) = AddParams (AddParams m params1) params2.
Proof. unfold AddParams. apply foldl_app. Qed.

Lemma addParam_present m param k v :
  m !! k = Some v -> addParam m param !! k = Some v.
Proof.
  intros Hk. unfold addParam.
  destruct (m !! bareName param) eqn:Hn; [exact Hk|].
  rewrite lookup_insert_ne; [exact Hk|].
  intros Heq. rewrite Heq in Hn. congruence.
Qed.

Lemma addParam_other m param k :
  bareName param ≠ k -> addParam m param !! k = m !! k.
Proof.
  intros Hne. unfold addParam.
  destruct (m !! bareName param); [reflexivity|].
  by rewrite lookup_insert_ne.
Qed.

Lemma addParam_fresh m param :
  m !! bareName param = None ->
  addParam m param !! bareName param = Some (Value param).
Proof. intros Hn. unfold addParam. rewrite Hn. apply lookup_insert_eq. Qed.

Lemma AddParams_present m params k v :
  m !! k = Some v -> AddParams m params !! k = Some v.
Proof.
  revert m. induction params as [|param params IH]; intros m Hk.
  - exact Hk.
  - rewrite AddParams_cons. apply IH. by apply addParam_present.
Qed.

Lemma AddParams_other m params k :
  Forall (fun param => bareName param ≠ k) params ->
  AddParams m params !! k = m !! k.
Proof.
  intros Hall. revert m.
  induction Hall as [|param params Hne _ IH]; intros m.
  - reflexivity.
  - rewrite AddParams_cons, IH. by apply addParam_other.
Qed.

Lemma AddParams_first m before param after :
  m !! bareName param = None ->
  Forall (fun p => bareName p ≠ bareName param) before ->
  AddParams m (before ++ param :: after) !! bareName param
  = Some (Value param).
Proof.
  intros Hfree Hbefore.
  rewrite AddParams_app, AddParams_cons.
  apply AddParams_present, addParam_fresh.
  by rewrite AddParams_other.
Qed.

Lemma AddParams_dom_mono m params k :
  is_Some (m !! k) -> is_Some (AddParams m params !! k).
Proof. intros [v Hv]. exists v. by apply AddParams_present. Qed.

End Merge.

(** C3. Merging a batch never changes the value of a key that the namespace
    already holds. In particular, once the namespace is seeded from the
    environment of the process and the shared-scope batch, then the
    app-scope batch, are merged (in one call on their concatenation, as
    [main] does, or in two calls), every key of the environment still maps
    to its environment value. *)
Theorem merge_keeps_present_keys :
  (forall (N : paramMap) (B : list ssm_Parameter) (k v : string),
      N !! k = Some v -> AddParams N B !! k = Some v)
  /\ (forall (environ : list string) (seed : paramMap)
        (sharedParams appParams : list ssm_Parameter) (k v : string),
        getOSEnv environ = Some seed ->
        seed !! k = Some v ->
        AddParams seed (sharedParams ++ appParams) !! k = Some v
        /\ AddParams (AddParams seed sharedParams) appParams !! k = Some v).
Proof.
  split.
  - intros N B k v. apply AddParams_present.
  - intros environ seed sharedParams appParams k v _ Hk. split.
    + by apply AddParams_present.
    + by do 2 apply AddParams_present.
Qed.

(** The scope-ordering example of the specification: the environment has
    [FOO=local], the shared scope a parameter [FOO] with value [remote], the
    app scope one with value [app]. *)
Lemma merge_keeps_present_keys_witness :
  getOSEnv ["FOO=local"] = Some {[ "FOO" := "local" ]}
  /\ ({[ "FOO" := "local" ]} : paramMap) !! "FOO" = Some "local"
  /\ AddParams {[ "FOO" := "local" ]}
       ([ {| Name := "/prod/FOO"; Value := "remote" |} ]
        ++ [ {| Name := "/prod/web/FOO"; Value := "app" |} ]) !! "FOO"
     = Some "local".
Proof.
  split; [reflexivity|]. split; [reflexivity|].
  apply (proj2 merge_keeps_present_keys ["FOO=local"] {[ "FOO" := "local" ]}
           [ {| Name := "/prod/FOO"; Value := "remote" |} ]
           [ {| Name := "/prod/web/FOO"; Value := "app" |} ] "FOO" "local");
    reflexivity.
Defined.

(** C7. When two parameters of a batch have different hierarchical names
    with the same final segment, and the namespace does not hold that bare
    name, the merge files the bare name under the value of the first of them
    in arrival order; the later one is skipped. *)
Theorem merge_first_of_batch_wins (m : paramMap)
    (before between after : list ssm_Parameter) (first later : ssm_Parameter) :
  Name first ≠ Name later ->
  bareName first = bareName later ->
  m !! bareName first = None ->
  Forall (fun p => bareName p ≠ bareName first) before ->
  AddParams m (before ++ first :: between ++ later :: after) !! bareName later
  = Some (Value first).
Proof.
  intros _ Hsame Hfree Hbefore. rewrite <- Hsame.
  by apply AddParams_first.
Qed.

Lemma merge_first_of_batch_wins_witness :
  AddParams ∅
    ([ {| Name := "/prod/HOST"; Value := "h" |} ]
     ++ {| Name := "/prod/a/KEY"; Value := "one" |}
     :: [ {| Name := "/prod/PORT"; Value := "p" |} ]
     ++ {| Name := "/prod/b/KEY"; Value := "two" |} :: []) !! "KEY"
  = Some "one".
Proof.
  apply (merge_first_of_batch_wins ∅
           [ {| Name := "/prod/HOST"; Value := "h" |} ]
           [ {| Name := "/prod/PORT"; Value := "p" |} ] []
           {| Name := "/prod/a/KEY"; Value := "one" |}
           {| Name := "/prod/b/KEY"; Value := "two" |}).
  - discriminate.
  - reflexivity.
  - reflexivity.
  - repeat constructor. discriminate.
Defined.

(** ** The interpolation resolver *)

Section StringFacts.

Implicit Types (s t : string) (c : ascii).

Lemma take_length s : strings.take (String.length s) s = s.
Proof. induction s as [|a s IH]; simpl; [reflexivity|]. by rewrite IH. Qed.

Lemma TrimRight_snoc s c :
  strings.TrimRight (s +:+ String c "") c = strings.TrimRight s c.
Proof.
  induction s as [|a s IH]; simpl.
  - by rewrite Ascii.eqb_refl.
  - by rewrite IH.
Qed.

Lemma app_assoc_snoc s c t : s +:+ String c t = (s +:+ String c "") +:+ t.
Proof. induction s as [|a s IH]; simpl; [reflexivity|]. by rewrite IH. Qed.

Lemma TrimRight_snoc2 s c :
  strings.TrimRight (s +:+ String c (String c "")) c = strings.TrimRight s c.
Proof. by rewrite app_assoc_snoc, !TrimRight_snoc. Qed.

(** Trimming the delimiters off a token leaves the trimmed name. *)
Lemma Trim_token s c :
  strings.Trim (String c (String c (s +:+ String c (String c "")))) c
  = strings.Trim s c.
Proof.
  unfold strings.Trim. simpl. rewrite Ascii.eqb_refl.
  induction s as [|a s IH].
  - simpl. by rewrite Ascii.eqb_refl.
  - simpl. destruct (Ascii.eqb a c) eqn:Hac; [exact IH|].
    change (String a (s +:+ String c (String c "")))
      with (String a s +:+ String c (String c "")).
    apply TrimRight_snoc2.
Qed.

End StringFacts.

Section RegexpFacts.

Implicit Types (s : string) (k : string -> option nat).

Lemma starK_Dot k fuel s :
  (String.length s <= fuel)%nat ->
  starK (matchK Dot) k fuel s = greedyDot k s.
Proof.
  revert s. induction fuel as [|fuel IH]; intros s Hlen.
  - destruct s; [reflexivity|simpl in Hlen; lia].
  - destruct s as [|a s]; [reflexivity|].
    simpl. destruct (Ascii.eqb a newline); [reflexivity|].
    assert (Hlt : (String.length s <? S (String.length s))%nat = true)
      by (apply Nat.ltb_lt; lia).
    rewrite Hlt, IH by (simpl in Hlen; lia). reflexivity.
Qed.

Lemma matchK_Cat r1 r2 s k :
  matchK (Cat r1 r2) s k = matchK r1 s (fun s' => matchK r2 s' k).
Proof. reflexivity. Qed.

Lemma matchK_Lit_eq c s k : matchK (Lit c) (String c s) k = S <$> k s.
Proof. simpl. by rewrite Ascii.eqb_refl. Qed.

Lemma matchK_Star_Dot k s : matchK (Star Dot) s k = greedyDot k s.
Proof. simpl. by apply starK_Dot. Qed.

Lemma greedyDot_closing s :
  strings.ContainsByte s newline = false ->
  greedyDot closing (s +:+ "%%") = Some (String.length s + 2)%nat.
Proof.
  induction s as [|a s IH]; intros Hnl.
  - reflexivity.
  - simpl in Hnl. apply orb_false_elim in Hnl as [Ha Hs].
    simpl. rewrite Ha, IH by exact Hs. reflexivity.
Qed.

(** A value that is one token, with a name free of newlines, is matched
    as a whole. *)
Lemma matchHere_token s :
  strings.ContainsByte s newline = false ->
  matchHere paramInterpolation ("%%" +:+ s +:+ "%%")
  = Some (String.length ("%%" +:+ s +:+ "%%")).
Proof.
  intros Hnl. unfold matchHere, paramInterpolation.
  change ("%%" +:+ s +:+ "%%") with (String "%" (String "%" (s +:+ "%%"))).
  rewrite matchK_Cat, matchK_Lit_eq, matchK_Cat, matchK_Lit_eq, matchK_Cat.
  rewrite matchK_Star_Dot.
  fold closing.
  rewrite greedyDot_closing by exact Hnl.
  simpl. f_equal. f_equal. f_equal.
  induction s as [|a s IH]; simpl; [reflexivity|].
  apply orb_false_elim in Hnl as [_ Hs]. by rewrite <- IH.
Qed.

Lemma replaceFrom_skip_all r repl s :
  replaceFrom r repl s (String.length s) true = "".
Proof.
  induction s as [|a s IH]; simpl; [|exact IH].
  by destruct (matchHere r "") as [[|?]|].
Qed.

Lemma append_empty_r s : s +:+ "" = s.
Proof. induction s as [|a s IH]; simpl; [reflexivity|]. by rewrite IH. Qed.

(** A match that covers the whole text is replaced, and nothing else is
    copied. *)
Lemma ReplaceAllStringFunc_whole r repl s :
  s ≠ "" ->
  matchHere r s = Some (String.length s) ->
  ReplaceAllStringFunc r s repl = repl s.
Proof.
  intros Hne Hm. unfold ReplaceAllStringFunc.
  destruct s as [|a s]; [done|].
  cbn [replaceFrom]. rewrite Hm.
  cbn [String.length].
  change (strings.take (S (String.length s)) (String a s))
    with (strings.take (String.length (String a s)) (String a s)).
  by rewrite take_length, replaceFrom_skip_all, append_empty_r.
Qed.

(** A text without a match is copied unchanged. *)
Lemma replaceFrom_no_match r repl s b :
  MatchString r s = false -> replaceFrom r repl s O b = s.
Proof.
  revert b. induction s as [|a s IH]; intros b Hno; simpl in Hno |- *.
  - by destruct (matchHere r "").
  - destruct (matchHere r (String a s)); [discriminate|].
    by rewrite IH.
Qed.

End RegexpFacts.

Section Interpolation.

Implicit Types (m : paramMap) (order : list string) (k key v : string).

Lemma ReplaceInterpolations_in_cons key order m :
  ReplaceInterpolations_in (key :: order) m
  = ReplaceInterpolations_in order (interpStep m key).
Proof. reflexivity. Qed.

Lemma ReplaceInterpolations_in_app order1 order2 m :
  ReplaceInterpolations_in (order1 ++ order2) m
  = ReplaceInterpolations_in order2 (ReplaceInterpolations_in order1 m).
Proof. unfold ReplaceInterpolations_in. apply foldl_app. Qed.

Lemma interpStep_other m key k :
  key ≠ k -> interpStep m key !! k = m !! k.
Proof.
  intros Hne. unfold interpStep.
  destruct (m !! key); [|reflexivity]. by rewrite lookup_insert_ne.
Qed.

Lemma interpStep_visit m key v :
  m !! key = Some v -> interpStep m key !! key = Some (interpolate m v).
Proof. intros Hv. unfold interpStep. rewrite Hv. apply lookup_insert_eq. Qed.

Lemma interpStep_None m key k :
  m !! k = None -> interpStep m key !! k = None.
Proof.
  intros Hk. destruct (decide (key = k)) as [->|Hne].
  - unfold interpStep. by rewrite Hk.
  - by rewrite interpStep_other.
Qed.

Lemma interpStep_is_Some m key k :
  is_Some (m !! k) -> is_Some (interpStep m key !! k).
Proof.
  intros [v Hv]. destruct (decide (key = k)) as [->|Hne].
  - erewrite interpStep_visit by exact Hv. eauto.
  - rewrite interpStep_other by exact Hne. eauto.
Qed.

Lemma ReplaceInterpolations_in_other order m k :
  k ∉ order -> ReplaceInterpolations_in order m !! k = m !! k.
Proof.
  revert m. induction order as [|key order IH]; intros m Hnotin.
  - reflexivity.
  - apply not_elem_of_cons in Hnotin as [Hne Hnotin].
    rewrite ReplaceInterpolations_in_cons, IH by exact Hnotin.
    by apply interpStep_other.
Qed.

(** The loop adds no key and removes none. *)
Lemma ReplaceInterpolations_in_None order m k :
  m !! k = None -> ReplaceInterpolations_in order m !! k = None.
Proof.
  revert m. induction order as [|key order IH]; intros m Hk.
  - exact Hk.
  - rewrite ReplaceInterpolations_in_cons. by apply IH, interpStep_None.
Qed.

Lemma ReplaceInterpolations_in_is_Some order m k :
  is_Some (m !! k) -> is_Some (ReplaceInterpolations_in order m !! k).
Proof.
  revert m. induction order as [|key order IH]; intros m Hk.
  - exact Hk.
  - rewrite ReplaceInterpolations_in_cons. by apply IH, interpStep_is_Some.
Qed.

Lemma ReplaceInterpolations_in_dom order m :
  dom (ReplaceInterpolations_in order m) = dom m.
Proof.
  apply set_eq. intros k. rewrite !elem_of_dom. split.
  - intros Hsome. destruct (m !! k) eqn:Hk; [eauto|].
    rewrite ReplaceInterpolations_in_None in Hsome by exact Hk.
    by destruct Hsome.
  - apply ReplaceInterpolations_in_is_Some.
Qed.

(** The value a key ends with is its value rewritten against the map as it
    stands when the loop reaches the key. *)
Lemma ReplaceInterpolations_in_visit earlier key later m v :
  NoDup (earlier ++ key :: later) ->
  m !! key = Some v ->
  ReplaceInterpolations_in (earlier ++ key :: later) m !! key
  = Some (interpolate (ReplaceInterpolations_in earlier m) v).
Proof.
  intros Hnodup Hv.
  apply NoDup_app in Hnodup as (_ & Hdisj & Hrest).
  apply NoDup_cons in Hrest as [Hlater _].
  assert (Hearlier : key ∉ earlier).
  { intros Hin. apply (Hdisj key Hin). by left. }
  rewrite ReplaceInterpolations_in_app, ReplaceInterpolations_in_cons.
  rewrite ReplaceInterpolations_in_other by exact Hlater.
  apply interpStep_visit.
  by rewrite ReplaceInterpolations_in_other.
Qed.

Lemma rangeOrder_elem m order k :
  rangeOrder m order -> (k ∈ order <-> is_Some (m !! k)).
Proof.
  intros [_ Hdom]. rewrite <- elem_of_dom, <- Hdom.
  symmetry. apply elem_of_list_to_set.
Qed.

(** A value that no rewriting changes keeps its key's entry. *)
Lemma ReplaceInterpolations_in_fixed order m k v :
  (forall m', interpolate m' v = v) ->
  m !! k = Some v ->
  ReplaceInterpolations_in order m !! k = Some v.
Proof.
  intros Hfix. revert m. induction order as [|key order IH]; intros m Hk.
  - exact Hk.
  - rewrite ReplaceInterpolations_in_cons. apply IH.
    destruct (decide (key = k)) as [->|Hne].
    + erewrite interpStep_visit by exact Hk. by rewrite Hfix.
    + by rewrite interpStep_other.
Qed.

Lemma interpolate_no_match m v :
  MatchString paramInterpolation v = false -> interpolate m v = v.
Proof. apply replaceFrom_no_match. Qed.

(** A value that is one token is replaced by what the namespace holds for
    the trimmed name, or by the empty string. *)
Lemma interpolate_token m name :
  strings.ContainsByte name newline = false ->
  interpolate m ("%%" +:+ name +:+ "%%")
  = default "" (m !! strings.Trim name "%").
Proof.
  intros Hnl. unfold interpolate.
  rewrite ReplaceAllStringFunc_whole;
    [|discriminate|by apply matchHere_token].
  unfold lookupVar.
  change ("%%" +:+ name +:+ "%%")
    with (String "%" (String "%" (name +:+ String "%" (String "%" "")))).
  rewrite Trim_token. by destruct (m !! strings.Trim name "%").
Qed.

End Interpolation.

(** C8. In a namespace without the key [UNDEFINED], the resolver turns the
    value that is the token of [UNDEFINED] into the empty string, and the
    loop stores the empty string under the key that held it. The same holds
    for the token of any name free of newlines that, trimmed of percent
    signs, is not a key. *)
Theorem undefined_token_is_empty (m : paramMap) :
  m !! "UNDEFINED" = None ->
  interpolate m "%%UNDEFINED%%" = ""
  /\ (forall name,
         strings.ContainsByte name newline = false ->
         m !! strings.Trim name "%" = None ->
         interpolate m ("%%" +:+ name +:+ "%%") = "")
  /\ (forall m' key,
         ReplaceInterpolations m m' ->
         m !! key = Some "%%UNDEFINED%%" ->
         m' !! key = Some "").
Proof.
  intros Habsent.
  assert (Hvalue : forall m' : paramMap, m' !! "UNDEFINED" = None ->
                     interpolate m' "%%UNDEFINED%%" = "").
  { intros m' Hm'.
    change "%%UNDEFINED%%" with ("%%" +:+ "UNDEFINED" +:+ "%%").
    rewrite interpolate_token by reflexivity.
    change (strings.Trim "UNDEFINED" "%") with "UNDEFINED". by rewrite Hm'. }
  split; [by apply Hvalue|]. split.
  - intros name Hnl Hname. rewrite interpolate_token by exact Hnl.
    by rewrite Hname.
  - intros m' key (order & Horder & ->) Hkey.
    assert (Hin : key ∈ order) by (apply (rangeOrder_elem m); eauto).
    apply list_elem_of_split in Hin as (earlier & later & ->).
    rewrite (ReplaceInterpolations_in_visit _ _ _ _ "%%UNDEFINED%%");
      [|apply Horder|exact Hkey].
    f_equal. apply Hvalue. by apply ReplaceInterpolations_in_None.
Qed.

Lemma undefined_token_is_empty_witness :
  interpolate {[ "K" := "%%UNDEFINED%%" ]} "%%UNDEFINED%%" = "".
Proof.
  apply (undefined_token_is_empty {[ "K" := "%%UNDEFINED%%" ]}).
  reflexivity.
Defined.

(** C5. The resolver is one pass. The text that replaces a token is copied
    as it is stored, whatever tokens it holds itself: a key whose value is
    the token of another name ends with what that name held before the pass
    or holds after it, never with a further expansion of either. A key
    whose value is the token of its own name is looked up before its own
    entry is rewritten, so it ends with its original value (the token), not
    with the empty string. *)
Theorem interpolation_is_single_pass (m m' : paramMap) :
  ReplaceInterpolations m m' ->
  (forall name v,
      strings.ContainsByte name newline = false ->
      m !! strings.Trim name "%" = Some v ->
      interpolate m ("%%" +:+ name +:+ "%%") = v)
  /\ (m !! "FOO" = Some "%%FOO%%" -> m' !! "FOO" = Some "%%FOO%%")
  /\ (forall name,
         strings.ContainsByte name newline = false ->
         strings.Trim name "%" = name ->
         m !! name = Some ("%%" +:+ name +:+ "%%") ->
         m' !! name = Some ("%%" +:+ name +:+ "%%"))
  /\ (forall key name,
         strings.ContainsByte name newline = false ->
         strings.Trim name "%" = name ->
         key ≠ name ->
         m !! key = Some ("%%" +:+ name +:+ "%%") ->
         m' !! key = Some (default "" (m !! name))
         \/ m' !! key = Some (default "" (m' !! name))).
Proof.
  intros (order & Horder & ->).
  assert (Hself : forall name,
             strings.ContainsByte name newline = false ->
             strings.Trim name "%" = name ->
             m !! name = Some ("%%" +:+ name +:+ "%%") ->
             ReplaceInterpolations_in order m !! name
             = Some ("%%" +:+ name +:+ "%%")).
  { intros name Hnl Htrim Hname.
    assert (Hin : name ∈ order) by (apply (rangeOrder_elem m); eauto).
    apply list_elem_of_split in Hin as (earlier & later & ->).
    assert (Hnodup := proj1 Horder).
    rewrite (ReplaceInterpolations_in_visit _ _ _ _ _ Hnodup Hname).
    f_equal. rewrite interpolate_token by exact Hnl. rewrite Htrim.
    apply NoDup_app in Hnodup as (_ & Hdisj & _).
    rewrite ReplaceInterpolations_in_other, Hname; [reflexivity|].
    intros Hin. apply (Hdisj name Hin). by left. }
  split; [|split; [|split]].
  - intros name v Hnl Hname. rewrite interpolate_token by exact Hnl.
    by rewrite Hname.
  - intros Hfoo. by apply (Hself "FOO").
  - exact Hself.
  - intros key name Hnl Htrim Hne Hkey.
    assert (Hin : key ∈ order) by (apply (rangeOrder_elem m); eauto).
    apply list_elem_of_split in Hin as (earlier & later & ->).
    assert (Hnodup := proj1 Horder).
    rewrite (ReplaceInterpolations_in_visit _ _ _ _ _ Hnodup Hkey).
    rewrite interpolate_token by exact Hnl. rewrite Htrim.
    destruct (decide (name ∈ earlier)) as [Hearlier|Hlater].
    + right. rewrite ReplaceInterpolations_in_app.
      rewrite (ReplaceInterpolations_in_other (key :: later)); [reflexivity|].
      apply NoDup_app in Hnodup as (_ & Hdisj & _). by apply Hdisj.
    + left. by rewrite ReplaceInterpolations_in_other.
Qed.

Lemma interpolation_is_single_pass_witness :
  ReplaceInterpolations_in ["BAR"; "FOO"]
    (<["FOO" := "%%FOO%%"]> {[ "BAR" := "%%FOO%%" ]}) !! "FOO"
  = Some "%%FOO%%".
Proof.
  refine (proj1 (proj2 (interpolation_is_single_pass
           (<["FOO" := "%%FOO%%"]> {[ "BAR" := "%%FOO%%" ]}) _ _)) _).
  - exists ["BAR"; "FOO"]. split; [|reflexivity].
    apply (bool_decide_unpack _). vm_compute. exact I.
  - reflexivity.
Defined.

(** C1, as the code has it. The star of [paramInterpolation] is greedy, so
    in a value with two tokens on one line the match runs from the first
    opening delimiter to the last closing one. The name looked up is
    everything in between, which is no key of the namespace, and the two
    tokens are replaced together by the empty string: in the namespace of
    the specification's example the value resolves to [prefix-], not to
    [prefix-1-2], whatever order the loop takes. *)
Theorem two_tokens_are_one_greedy_match :
  (forall repl,
      ReplaceAllStringFunc paramInterpolation "prefix-%%A%%-%%B%%" repl
      = "prefix-" +:+ repl "%%A%%-%%B%%")
  /\ strings.Trim "%%A%%-%%B%%" "%" = "A%%-%%B"
  /\ (forall m : paramMap,
         interpolate m "prefix-%%A%%-%%B%%"
         = "prefix-" +:+ default "" (m !! "A%%-%%B"))
  /\ interpolate (<["A" := "1"]> {[ "B" := "2" ]}) "prefix-%%A%%-%%B%%"
     = "prefix-"
  /\ (forall m' : paramMap,
         ReplaceInterpolations
           (<["A" := "1"]> (<["B" := "2"]> {[ "X" := "prefix-%%A%%-%%B%%" ]}))
           m' ->
         m' !! "A" = Some "1" /\ m' !! "B" = Some "2"
         /\ m' !! "X" = Some "prefix-").
Proof.
  assert (Hrepl : forall repl,
             ReplaceAllStringFunc paramInterpolation "prefix-%%A%%-%%B%%" repl
             = "prefix-" +:+ repl "%%A%%-%%B%%").
  { intros repl. unfold ReplaceAllStringFunc. cbv - [String.append].
    by rewrite append_empty_r. }
  assert (Hvalue : forall m : paramMap,
             interpolate m "prefix-%%A%%-%%B%%"
             = "prefix-" +:+ default "" (m !! "A%%-%%B")).
  { intros m. unfold interpolate. rewrite Hrepl. unfold lookupVar.
    change (strings.Trim "%%A%%-%%B%%" "%") with "A%%-%%B".
    by destruct (m !! "A%%-%%B"). }
  split; [exact Hrepl|]. split; [reflexivity|]. split; [exact Hvalue|].
  split; [by rewrite Hvalue|].
  intros m' (order & Horder & ->).
  set (m := <["A" := "1"]> (<["B" := "2"]> {[ "X" := "prefix-%%A%%-%%B%%" ]}))
    in *.
  split; [|split].
  - apply ReplaceInterpolations_in_fixed; [|reflexivity].
    intros m''. by apply interpolate_no_match.
  - apply ReplaceInterpolations_in_fixed; [|reflexivity].
    intros m''. by apply interpolate_no_match.
  - assert (Hin : "X" ∈ order) by (by apply (rangeOrder_elem m)).
    apply list_elem_of_split in Hin as (earlier & later & ->).
    rewrite (ReplaceInterpolations_in_visit _ _ _ _ "prefix-%%A%%-%%B%%");
      [|apply Horder|reflexivity].
    rewrite Hvalue, ReplaceInterpolations_in_None; reflexivity.
Qed.

(** ** Seeding and flattening *)

Section Seed.

Implicit Types (e k v : string) (environ : list string) (m : paramMap).

Lemma SplitN2_sep e sep :
  strings.ContainsByte e sep = true ->
  exists k v, strings.SplitN2 e sep = [k; v] /\ e = k +:+ String sep v
              /\ strings.ContainsByte k sep = false.
Proof.
  induction e as [|a e IH]; simpl; [discriminate|].
  destruct (Ascii.eqb a sep) eqn:Ha; simpl.
  - intros _. apply Ascii.eqb_eq in Ha as ->. by exists "", e.
  - intros He. destruct (IH He) as (k & v & -> & -> & Hk).
    exists (String a k), v. simpl. by rewrite Ha, Hk.
Qed.

(** The split is at the first separator: what follows it is kept whole. *)
Lemma SplitN2_join k v sep :
  strings.ContainsByte k sep = false ->
  strings.SplitN2 (k +:+ String sep v) sep = [k; v].
Proof.
  induction k as [|a k IH]; simpl.
  - intros _. by rewrite Ascii.eqb_refl.
  - intros Hk. apply orb_false_elim in Hk as [Ha Hk].
    by rewrite Ha, IH.
Qed.

Lemma entryLine_split e :
  strings.ContainsByte e "=" = true ->
  entryLine (envName e, envValue e) = e.
Proof.
  intros He. destruct (SplitN2_sep e "=" He) as (k & v & Hs & -> & _).
  unfold entryLine, envName, envValue. by rewrite Hs.
Qed.

Lemma getOSEnv_snoc environ e :
  getOSEnv (environ ++ [e])
  = m ← getOSEnv environ;
    k ← strings.SplitN2 e "=" !! 0%nat;
    v ← strings.SplitN2 e "=" !! 1%nat;
    Some (<[k := v]> m).
Proof. unfold getOSEnv. by rewrite foldl_app. Qed.

(** On entries that all hold the separator, with distinct names, the
    seeded namespace holds exactly the pairs of the entries. *)
Lemma getOSEnv_pairs environ :
  Forall (fun e => strings.ContainsByte e "=" = true) environ ->
  NoDup (envName <$> environ) ->
  exists m, getOSEnv environ = Some m
            /\ map_to_list m ≡ₚ (fun e => (envName e, envValue e)) <$> environ.
Proof.
  induction environ as [|e environ IH] using rev_ind; intros Hwf Hnames.
  - exists ∅. split; [reflexivity|]. by rewrite map_to_list_empty.
  - apply Forall_app in Hwf as [Hwf He].
    apply Forall_cons in He as [He _].
    rewrite fmap_app in Hnames.
    apply NoDup_app in Hnames as (Hnames & Hfresh & _).
    destruct (IH Hwf Hnames) as (m & Hm & Hperm).
    destruct (SplitN2_sep e "=" He) as (k & v & Hs & _ & _).
    exists (<[k := v]> m). split.
    + rewrite getOSEnv_snoc, Hm, Hs. reflexivity.
    + assert (Hk : envName e = k) by (unfold envName; by rewrite Hs).
      assert (Hv : envValue e = v) by (unfold envValue; by rewrite Hs).
      assert (Hnone : m !! k = None).
      { destruct (m !! k) as [v'|] eqn:Hmk; [|reflexivity]. exfalso.
        apply elem_of_map_to_list in Hmk. rewrite Hperm in Hmk.
        apply list_elem_of_fmap in Hmk as (e' & Heq & He').
        injection Heq as Hname _.
        apply (Hfresh k).
        - rewrite Hname. by apply list_elem_of_fmap_2.
        - simpl. rewrite Hk. by left. }
      rewrite map_to_list_insert by exact Hnone.
      rewrite fmap_app. simpl. rewrite Hk, Hv, Hperm.
      by rewrite Permutation_app_comm.
Qed.

Lemma rangeOrder_keys m order :
  rangeOrder m order -> order ≡ₚ (map_to_list m).*1.
Proof.
  intros Horder. apply NoDup_Permutation.
  - apply Horder.
  - apply NoDup_fst_map_to_list.
  - intros k. rewrite (rangeOrder_elem m order k Horder). split.
    + intros [v Hv]. apply list_elem_of_fmap. exists (k, v).
      split; [reflexivity|]. by apply elem_of_map_to_list.
    + intros Hin. apply list_elem_of_fmap in Hin as ([k' v] & -> & Hin).
      apply elem_of_map_to_list in Hin. eauto.
Qed.

Lemma StringArray_in_cons k order m :
  StringArray_in (k :: order) m
  = match m !! k with
    | Some v => entryLine (k, v) :: StringArray_in order m
    | None => StringArray_in order m
    end.
Proof. unfold StringArray_in. simpl. by destruct (m !! k). Qed.

Lemma StringArray_in_app order1 order2 m :
  StringArray_in (order1 ++ order2) m
  = StringArray_in order1 m ++ StringArray_in order2 m.
Proof. apply omap_app. Qed.

Lemma StringArray_in_pairs m (l : list (string * string)) :
  Forall (fun kv => m !! kv.1 = Some kv.2) l ->
  StringArray_in l.*1 m = entryLine <$> l.
Proof.
  induction 1 as [|[k v] l Hkv _ IH]; [reflexivity|].
  simpl in Hkv. rewrite !fmap_cons, StringArray_in_cons.
  cbn [fst]. by rewrite Hkv, IH.
Qed.

(** Whatever the order of the loop, the flattened list holds one line for
    every entry of the namespace. *)
Lemma StringArray_in_map_to_list m order :
  rangeOrder m order ->
  StringArray_in order m ≡ₚ entryLine <$> map_to_list m.
Proof.
  intros Horder. unfold StringArray_in.
  rewrite (rangeOrder_keys m order Horder).
  apply reflexive_eq, StringArray_in_pairs.
  apply Forall_forall. intros [k v] Hin. by apply elem_of_map_to_list.
Qed.

Lemma StringArray_in_ext m1 m2 order :
  Forall (fun k => m1 !! k = m2 !! k) order ->
  StringArray_in order m1 = StringArray_in order m2.
Proof.
  induction 1 as [|k order Hk _ IH]; [reflexivity|].
  by rewrite !StringArray_in_cons, Hk, IH.
Qed.

End Seed.

(** The entries of a namespace that extends [seed] are those of [seed] and
    those under the keys that [seed] lacks. *)
Lemma map_to_list_extension (seed final : paramMap) :
  (forall k v, seed !! k = Some v -> final !! k = Some v) ->
  map_to_list final
  ≡ₚ map_to_list seed
     ++ map_to_list (filter (fun kv => seed !! kv.1 = None) final).
Proof.
  intros Hkeep. apply NoDup_Permutation.
  - apply NoDup_map_to_list.
  - apply NoDup_app. split; [apply NoDup_map_to_list|].
    split; [|apply NoDup_map_to_list].
    intros [k v] Hseed Hrest.
    apply elem_of_map_to_list in Hseed.
    apply elem_of_map_to_list, map_lookup_filter_Some in Hrest as [_ Hnone].
    simpl in Hnone. congruence.
  - intros [k v].
    rewrite elem_of_app, !elem_of_map_to_list, map_lookup_filter_Some.
    simpl. split.
    + intros Hfinal. destruct (seed !! k) as [v'|] eqn:Hk; [left|by right].
      apply Hkeep in Hk. congruence.
    + intros [Hseed|[Hfinal _]]; [by apply Hkeep|exact Hfinal].
Qed.

(** C10. [getOSEnv] splits an entry at its first equals sign only, so a
    value that holds equals signs is stored whole. For an environment as
    [os.Environ()] delivers it (every entry holds an equals sign, no name
    occurs twice), flattening the seeded namespace gives back the entries, up
    to order. When moreover no value holds a match of [paramInterpolation],
    merging any batch and running the resolver leaves every entry of the
    environment in place: the flattened final namespace is the entries of
    the environment together with the lines of the keys that the batch
    added, and the entries alone when nothing was fetched. *)
Theorem seed_then_flatten_round_trip (environ : list string) :
  Forall (fun e => strings.ContainsByte e "=" = true) environ ->
  NoDup (envName <$> environ) ->
  exists seed,
    getOSEnv environ = Some seed
    /\ (forall name value,
           strings.ContainsByte name "=" = false ->
           (name +:+ "=" +:+ value) ∈ environ ->
           seed !! name = Some value)
    /\ (forall lines, StringArray seed lines -> lines ≡ₚ environ)
    /\ (Forall (fun e => MatchString paramInterpolation (envValue e) = false)
          environ ->
        forall params final lines,
          ReplaceInterpolations (AddParams seed params) final ->
          StringArray final lines ->
          (forall k v, seed !! k = Some v -> final !! k = Some v)
          /\ lines
             ≡ₚ environ
                ++ (entryLine
                      <$> map_to_list
                            (filter (fun kv => seed !! kv.1 = None) final))
          /\ (params = [] -> lines ≡ₚ environ)).
Proof.
  intros Hwf Hnames.
  destruct (getOSEnv_pairs environ Hwf Hnames) as (seed & Hseed & Hperm).
  exists seed. split; [exact Hseed|].
  assert (Hlookup : forall k v,
             seed !! k = Some v <->
             exists e, e ∈ environ /\ k = envName e /\ v = envValue e).
  { intros k v. rewrite <- elem_of_map_to_list, Hperm, list_elem_of_fmap.
    split.
    - intros (e & Heq & He). injection Heq as -> ->. eauto.
    - intros (e & He & -> & ->). eauto. }
  assert (Hlines : entryLine <$> map_to_list seed ≡ₚ environ).
  { rewrite Hperm. apply reflexive_eq. clear -Hwf.
    induction Hwf as [|e environ He _ IH]; [reflexivity|].
    rewrite !fmap_cons, IH. f_equal. by apply entryLine_split. }
  assert (Hflat : forall lines, StringArray seed lines -> lines ≡ₚ environ).
  { intros lines (order & Horder & ->).
    by rewrite (StringArray_in_map_to_list seed order Horder). }
  split; [|split; [exact Hflat|]].
  - intros name value Hname Hin. apply Hlookup. exists (name +:+ "=" +:+ value).
    split; [exact Hin|].
    unfold envName, envValue.
    change (name +:+ "=" +:+ value) with (name +:+ String "=" value).
    by rewrite SplitN2_join.
  - intros Hvalues params final lines (order1 & _ & ->) Hstrings.
    set (final := ReplaceInterpolations_in order1 (AddParams seed params)) in *.
    assert (Hkeep : forall k v, seed !! k = Some v -> final !! k = Some v).
    { intros k v Hk. apply ReplaceInterpolations_in_fixed.
      - intros m'. apply interpolate_no_match.
        apply Hlookup in Hk as (e & He & _ & ->).
        revert e He. by apply Forall_forall.
      - by apply AddParams_present. }
    split; [exact Hkeep|]. split.
    + destruct Hstrings as (order2 & Horder2 & ->).
      rewrite (StringArray_in_map_to_list final order2 Horder2).
      rewrite (map_to_list_extension seed final Hkeep), fmap_app.
      by rewrite Hlines.
    + intros ->.
      assert (Hsame : final = seed).
      { apply map_eq. intros k. destruct (seed !! k) as [v|] eqn:Hk.
        - by apply Hkeep.
        - by apply ReplaceInterpolations_in_None. }
      rewrite Hsame in Hstrings. by apply Hflat.
Qed.

Lemma seed_then_flatten_round_trip_witness :
  exists seed,
    getOSEnv ["HOME=/root"; "OPTS=a=b"] = Some seed
    /\ seed !! "OPTS" = Some "a=b"
    /\ StringArray_in ["OPTS"; "HOME"] seed ≡ₚ ["HOME=/root"; "OPTS=a=b"].
Proof.
  destruct (seed_then_flatten_round_trip ["HOME=/root"; "OPTS=a=b"])
    as (seed & Hseed & Hsplit & Hflat & _).
  - repeat constructor.
  - apply (bool_decide_unpack _). vm_compute. exact I.
  - exists seed. split; [exact Hseed|]. split.
    + apply Hsplit; [reflexivity|]. right. left.
    + apply Hflat. exists ["OPTS"; "HOME"]. split; [|reflexivity].
      injection Hseed as <-.
      apply (bool_decide_unpack _). vm_compute. exact I.
Defined.

(** ** The paginated fetcher *)

Section Fetcher.

Variables (client : ssm_SSM) (path : string).

Lemma bind_Ret {A B} (c : IO A) (f : A -> IO B) tr a tr' :
  c tr = (Ret a, tr') -> (c ≫= f) tr = f a tr'.
Proof. intros Hc. unfold mbind, IO_bind. by rewrite Hc. Qed.

Lemma bind_Exit {A B} (c : IO A) (f : A -> IO B) tr code tr' :
  c tr = (Exit code, tr') -> (c ≫= f) tr = (Exit code, tr').
Proof. intros Hc. unfold mbind, IO_bind. by rewrite Hc. Qed.

Lemma bind_Panic {A B} (c : IO A) (f : A -> IO B) tr msg tr' :
  c tr = (Panic msg, tr') -> (c ≫= f) tr = (Panic msg, tr').
Proof. intros Hc. unfold mbind, IO_bind. by rewrite Hc. Qed.

Lemma int_add_1 itr :
  0 <= itr < 2 ^ 63 - 1 -> int_add itr 1 = itr + 1.
Proof. intros Hitr. unfold int_add. rewrite Z.mod_small; lia. Qed.

Lemma session_length tok toks pages r :
  session client path tok toks pages r ->
  length toks = (length pages + match r with Some _ => 1 | None => 0 end)%nat
  /\ toks ≠ [].
Proof.
  induction 1 as [| |tok out next toks pages r _ _ _ [IH _]]; simpl;
    [done|done|]. split; [by rewrite IH|done].
Qed.

(** One call of [getParameters] that does not stop at the test: the delay,
    the request, and then the error or the next call. *)
Lemma getParameters_step fuel tok fetched itr tr :
  negb (itr =? 0) && isNil tok = false ->
  getParameters (S fuel)
    {| Client := client; Path := path; NextToken := tok;
       FetchedParams := fetched |} itr tr
  = match client (request path tok) with
    | inr err =>
        (Ret ([], Some err), tr ++ fetchTrace path [tok])
    | inl out =>
        getParameters fuel
          {| Client := client; Path := path;
             NextToken := resp_NextToken out;
             FetchedParams := fetched ++ Parameters out |}
          (int_add itr 1) (tr ++ fetchTrace path [tok])
    end.
Proof.
  intros Htest. cbn [getParameters]. cbn [NextToken Client Path FetchedParams].
  rewrite Htest.
  unfold time_Sleep, call_GetParametersByPath, emit, mbind, IO_bind, mret,
    IO_ret, fetchTrace.
  cbn [mbind list_bind app]. fold (request path tok).
  rewrite <- app_assoc. cbn [app].
  by destruct (client (request path tok)).
Qed.

Lemma getParameters_stop fuel fetched itr tr :
  itr ≠ 0 ->
  getParameters (S fuel)
    {| Client := client; Path := path; NextToken := None;
       FetchedParams := fetched |} itr tr
  = (Ret (fetched, None), tr).
Proof.
  intros Hitr. cbn [getParameters NextToken FetchedParams isNil].
  apply Z.eqb_neq in Hitr. by rewrite Hitr.
Qed.

Lemma fetchTrace_cons tok toks :
  fetchTrace path (tok :: toks) = fetchTrace path [tok] ++ fetchTrace path toks.
Proof. unfold fetchTrace. cbn [mbind list_bind]. by rewrite app_nil_r. Qed.

(** Along a session the fetcher makes exactly its requests and returns
    what the session ends with: all pages after what was fetched before,
    or the error and no parameter. *)
Lemma getParameters_session tok toks pages r :
  session client path tok toks pages r ->
  forall fuel fetched itr tr,
    (length toks < fuel)%nat ->
    0 <= itr -> itr + Z.of_nat (length toks) < 2 ^ 63 ->
    itr = 0 \/ tok ≠ None ->
    getParameters fuel
      {| Client := client; Path := path; NextToken := tok;
         FetchedParams := fetched |} itr tr
    = (Ret (match r with
            | Some _ => []
            | None => fetched ++ concat pages
            end, r),
       tr ++ fetchTrace path toks).
Proof.
  induction 1 as [tok err Herr|tok out Hout Hnext
                 |tok out next toks pages r Hout Hnext Hrest IH];
    intros fuel fetched itr tr Hfuel Hitr Hbound Hstart;
    (destruct fuel as [|fuel]; [simpl in Hfuel; lia|]);
    (rewrite getParameters_step;
     [|destruct Hstart as [->|Htok]; [reflexivity|];
       destruct tok; [apply andb_false_r|done]]).
  - by rewrite Herr.
  - rewrite Hout, Hnext. simpl in Hfuel, Hbound.
    destruct fuel as [|fuel]; [lia|].
    rewrite getParameters_stop by (rewrite int_add_1; lia).
    cbn [concat]. by rewrite app_nil_r.
  - rewrite Hout, Hnext. simpl in Hfuel.
    rewrite length_cons in Hbound.
    rewrite IH; [|lia|rewrite int_add_1; lia|rewrite int_add_1; lia|by right].
    rewrite fetchTrace_cons, <- !app_assoc. cbn [concat].
    by destruct r; rewrite <- ?app_assoc.
Qed.

(** A store that always hands out a cursor keeps the fetcher going for as
    long as there is fuel: it never returns. *)
Lemma getParameters_endless :
  (forall input, exists out next,
      client input = inl out /\ resp_NextToken out = Some next) ->
  forall fuel tok fetched itr tr,
    itr = 0 \/ tok ≠ None ->
    (getParameters fuel
       {| Client := client; Path := path; NextToken := tok;
          FetchedParams := fetched |} itr tr).1 = OutOfFuel.
Proof.
  intros Hmore. induction fuel as [|fuel IH];
    intros tok fetched itr tr Hstart; [reflexivity|].
  rewrite getParameters_step.
  - destruct (Hmore (request path tok)) as (out & next & -> & ->).
    apply IH. by right.
  - destruct Hstart as [->|Htok]; [reflexivity|].
    destruct tok; [apply andb_false_r|done].
Qed.

End Fetcher.

(** C6. For a store whose pages from the first request on are finitely many
    (and fewer than the range of the [int] counter), the fetcher returns,
    given fuel for one call per page and one more: it has sent one request
    per page, each after the pacing delay of 100 ms, the last one being the
    one whose answer carried no cursor, and it returns the pages
    concatenated in arrival order. Against a store that hands out a cursor
    with every answer it never returns. For a store of 25 entries served in
    pages of 10 it returns the 25 entries after 3 requests. *)
Theorem fetcher_follows_cursors_to_the_end :
  (forall client path toks pages fuel tr,
      session client path None toks pages None ->
      Z.of_nat (length toks) < 2 ^ 63 ->
      (length toks < fuel)%nat ->
      getParameters fuel (firstCall client path) 0 tr
      = (Ret (concat pages, None), tr ++ fetchTrace path toks)
      /\ length toks = length pages)
  /\ (forall client path fuel tr,
         (forall input, exists out next,
             client input = inl out /\ resp_NextToken out = Some next) ->
         (getParameters fuel (firstCall client path) 0 tr).1 = OutOfFuel)
  /\ (forall entries path fuel tr,
         length entries = 25%nat ->
         (3 < fuel)%nat ->
         getParameters fuel (firstCall (pagedStore entries) path) 0 tr
         = (Ret (entries, None),
            tr ++ [ Sleep (100 * time_Millisecond);
                    GetParametersByPath (request path None);
                    Sleep (100 * time_Millisecond);
                    GetParametersByPath (request path (Some (unary 10)));
                    Sleep (100 * time_Millisecond);
                    GetParametersByPath (request path (Some (unary 20))) ])
           /\ length entries = 25%nat).
Proof.
  assert (Hfinite : forall client path toks pages fuel tr,
             session client path None toks pages None ->
             Z.of_nat (length toks) < 2 ^ 63 ->
             (length toks < fuel)%nat ->
             getParameters fuel (firstCall client path) 0 tr
             = (Ret (concat pages, None), tr ++ fetchTrace path toks)
             /\ length toks = length pages).
  { intros client path toks pages fuel tr Hsession Hbound Hfuel. split.
    - unfold firstCall.
      rewrite (getParameters_session client path None toks pages None Hsession);
        [reflexivity|exact Hfuel|lia|lia|by left].
    - destruct (session_length _ _ _ _ _ _ Hsession) as [-> _]. lia. }
  split; [exact Hfinite|]. split.
  - intros client path fuel tr Hmore. unfold firstCall.
    apply getParameters_endless; [exact Hmore|by left].
  - intros entries path fuel tr Hlen Hfuel. split; [|exact Hlen].
    do 25 (destruct entries as [|? entries]; [discriminate|]).
    destruct entries; [|discriminate].
    match goal with
    | |- getParameters _ (firstCall (pagedStore ?es) _) _ _ = _ =>
        set (entries := es)
    end.
    destruct (Hfinite (pagedStore entries) path
                [None; Some (unary 10); Some (unary 20)]
                [take 10 entries; take 10 (drop 10 entries); drop 20 entries]
                fuel tr) as [-> _]; [| |exact Hfuel|reflexivity].
    + apply (session_more _ _ _
               {| Parameters := take 10 entries;
                  resp_NextToken := Some (unary 10) |} (unary 10));
        [reflexivity|reflexivity|].
      apply (session_more _ _ _
               {| Parameters := take 10 (drop 10 entries);
                  resp_NextToken := Some (unary 20) |} (unary 20));
        [reflexivity|reflexivity|].
      apply (session_last _ _ _
               {| Parameters := drop 20 entries; resp_NextToken := None |});
        reflexivity.
    + simpl. lia.
Qed.

Lemma fetcher_follows_cursors_to_the_end_witness :
  getParameters 4 (firstCall (pagedStore entries25) "/prod/") 0 []
  = (Ret (concat [take 10 entries25; take 10 (drop 10 entries25);
                  drop 20 entries25], None),
     [] ++ fetchTrace "/prod/" [None; Some (unary 10); Some (unary 20)])
  /\ length [None; Some (unary 10); Some (unary 20)]
     = length [take 10 entries25; take 10 (drop 10 entries25);
               drop 20 entries25].
Proof.
  apply (proj1 fetcher_follows_cursors_to_the_end
           (pagedStore entries25) "/prod/").
  - apply (session_more _ _ _
             {| Parameters := take 10 entries25;
                resp_NextToken := Some (unary 10) |} (unary 10));
      [reflexivity|reflexivity|].
    apply (session_more _ _ _
             {| Parameters := take 10 (drop 10 entries25);
                resp_NextToken := Some (unary 20) |} (unary 20));
      [reflexivity|reflexivity|].
    apply (session_last _ _ _
             {| Parameters := drop 20 entries25; resp_NextToken := None |});
      reflexivity.
  - simpl. lia.
  - simpl. lia.
Defined.

(** ** The driver *)

Section Phases.

Context {X : Type}.
Variables (client : ssm_SSM) (enabled : bool) (path : string).
Variables (h : error -> IO X) (g : list ssm_Parameter -> IO X) (skip : IO X).

Lemma scope_inv tr1 params r n :
  scope client enabled path tr1 params r n ->
  (enabled = false /\ tr1 = [] /\ params = [] /\ r = None /\ n = O)
  \/ (enabled = true /\ exists toks pages,
         session client path None toks pages r
         /\ Z.of_nat (length toks) < 2 ^ 63
         /\ tr1 = fetchTrace path toks
         /\ params = match r with Some _ => [] | None => concat pages end
         /\ n = S (length toks)).
Proof.
  destruct 1 as [Hen|toks pages r Hen Hsession Hbound]; [by left|].
  right. split; [exact Hen|]. by exists toks, pages.
Qed.

Lemma phase_fail fuel tr tr1 params err n :
  scope client enabled path tr1 params (Some err) n ->
  (n <= fuel)%nat ->
  phase client enabled path h g skip fuel tr = h err (tr ++ tr1).
Proof.
  intros Hscope Hfuel. unfold phase.
  destruct (scope_inv _ _ _ _ Hscope)
    as [(_ & _ & _ & ? & _)
       |(Hen & toks & pages & Hsession & Hbound & -> & _ & ->)];
    [discriminate|].
  rewrite Hen.
  erewrite bind_Ret;
    [|apply (getParameters_session _ _ _ _ _ _ Hsession);
      [lia|lia|lia|by left]].
  reflexivity.
Qed.

Lemma phase_ok fuel tr tr1 params n :
  scope client enabled path tr1 params None n ->
  (n <= fuel)%nat ->
  phase client enabled path h g skip fuel tr
  = (if enabled then g params else skip) (tr ++ tr1).
Proof.
  intros Hscope Hfuel. unfold phase.
  destruct (scope_inv _ _ _ _ Hscope)
    as [(Hen & -> & _)
       |(Hen & toks & pages & Hsession & Hbound & -> & -> & ->)];
    rewrite Hen.
  - by rewrite app_nil_r.
  - erewrite bind_Ret;
      [|apply (getParameters_session _ _ _ _ _ _ Hsession);
        [lia|lia|lia|by left]].
    reflexivity.
Qed.

Lemma scope_skipped_inv tr1 params r n :
  scope client enabled path tr1 params r n ->
  enabled = false -> tr1 = [] /\ params = [] /\ r = None.
Proof.
  intros Hscope Hen.
  destruct (scope_inv _ _ _ _ Hscope) as [(_ & -> & -> & -> & _)|[? _]];
    [done|congruence].
Qed.

(** A scope leaves requests behind exactly when it is configured. *)
Lemma scope_trace tr1 params r n :
  scope client enabled path tr1 params r n ->
  (tr1 = [] <-> enabled = false)
  /\ (enabled = true -> exists tok rest,
         tr1 = Sleep (100 * time_Millisecond)
               :: GetParametersByPath (request path tok) :: rest).
Proof.
  intros Hscope.
  destruct (scope_inv _ _ _ _ Hscope)
    as [(Hen & -> & _)
       |(Hen & toks & pages & Hsession & Hbound & -> & _)].
  - split; [done|congruence].
  - destruct (session_length _ _ _ _ _ _ Hsession) as [_ Hne].
    destruct toks as [|tok toks]; [done|].
    rewrite fetchTrace_cons. split; [split; [discriminate|congruence]|].
    intros _. by exists tok, (fetchTrace path toks).
Qed.

End Phases.

Lemma run_getOSEnv_ok w seed tr :
  getOSEnv (os_Environ w) = Some seed -> run_getOSEnv w tr = (Ret seed, tr).
Proof. intros Hseed. unfold run_getOSEnv. by rewrite Hseed. Qed.

Lemma run_args_ok w prog args tr :
  os_Args w = prog :: args -> run_args w tr = (Ret args, tr).
Proof. intros Hargs. unfold run_args. by rewrite Hargs. Qed.

Lemma log_Fatalln2_run {A B} (f : A -> IO B) a b tr :
  (log_Fatalln2 a b ≫= f) tr = (Exit 1, tr ++ [Stderr (a +:+ " " +:+ b)]).
Proof. reflexivity. Qed.

Lemma log_Fatalln_run {A} a tr :
  log_Fatalln (A:=A) a tr = (Exit 1, tr ++ [Stderr a]).
Proof. reflexivity. Qed.

Lemma printAll_run lines tr :
  Fuller.printAll lines tr = (Ret tt, tr ++ (Stdout <$> lines)).
Proof.
  revert tr. induction lines as [|l lines IH]; intros tr.
  - simpl. by rewrite app_nil_r.
  - cbn [Fuller.printAll]. erewrite bind_Ret by reflexivity.
    rewrite IH, fmap_cons, <- app_assoc. reflexivity.
Qed.

Section Driver.

Variables (h1 h2 : error -> IO (list ssm_Parameter)).
Variable tail : paramMap -> list string -> IO unit.

Variables (w : World) (seed : paramMap) (fuel : nat).
Hypothesis Hseed : getOSEnv (os_Environ w) = Some seed.

Lemma driver_shared_fail tr1 params1 err n1 code tr' :
  scope (svc w) (nonEmpty (appEnvOf w)) (sharedPath (appEnvOf w))
    tr1 params1 (Some err) n1 ->
  (n1 <= fuel)%nat ->
  h1 err tr1 = (Exit code, tr') ->
  driver h1 h2 tail fuel w [] = (Exit code, tr').
Proof.
  intros Hshared Hfuel Hh. unfold driver.
  erewrite bind_Ret by (by apply run_getOSEnv_ok).
  apply bind_Exit.
  erewrite phase_fail by eassumption. exact Hh.
Qed.

Lemma shared_ok tr1 params1 n1 tr :
  scope (svc w) (nonEmpty (appEnvOf w)) (sharedPath (appEnvOf w))
    tr1 params1 None n1 ->
  (n1 <= fuel)%nat ->
  phase (svc w) (nonEmpty (appEnvOf w)) (sharedPath (appEnvOf w))
    h1 mret (mret []) fuel tr
  = (Ret params1, tr ++ tr1).
Proof.
  intros Hshared Hfuel. erewrite phase_ok by eassumption.
  destruct (nonEmpty (appEnvOf w)) eqn:Hen; [reflexivity|].
  by destruct (scope_skipped_inv _ _ _ _ _ _ _ Hshared eq_refl)
    as (_ & -> & _).
Qed.

Lemma app_ok allParams tr2 params2 n2 tr :
  scope (svc w) (nonEmpty (appNameOf w))
    (appPath (appEnvOf w) (appNameOf w)) tr2 params2 None n2 ->
  (n2 <= fuel)%nat ->
  phase (svc w) (nonEmpty (appNameOf w)) (appPath (appEnvOf w) (appNameOf w))
    h2 (fun appParams => mret (allParams ++ appParams)) (mret allParams)
    fuel tr
  = (Ret (allParams ++ params2), tr ++ tr2).
Proof.
  intros Happ Hfuel. erewrite phase_ok by eassumption.
  destruct (nonEmpty (appNameOf w)) eqn:Hen; [reflexivity|].
  destruct (scope_skipped_inv _ _ _ _ _ _ _ Happ eq_refl) as (_ & -> & _).
  by rewrite app_nil_r.
Qed.

Lemma driver_app_fail tr1 params1 n1 tr2 params2 err n2 code tr' :
  scope (svc w) (nonEmpty (appEnvOf w)) (sharedPath (appEnvOf w))
    tr1 params1 None n1 ->
  scope (svc w) (nonEmpty (appNameOf w))
    (appPath (appEnvOf w) (appNameOf w)) tr2 params2 (Some err) n2 ->
  (n1 <= fuel)%nat -> (n2 <= fuel)%nat ->
  h2 err (tr1 ++ tr2) = (Exit code, tr') ->
  driver h1 h2 tail fuel w [] = (Exit code, tr').
Proof.
  intros Hshared Happ Hfuel1 Hfuel2 Hh. unfold driver.
  erewrite bind_Ret by (by apply run_getOSEnv_ok).
  erewrite bind_Ret by (by eapply shared_ok).
  apply bind_Exit.
  erewrite phase_fail by eassumption. exact Hh.
Qed.

Lemma driver_ok tr1 params1 n1 tr2 params2 n2 prog args :
  scope (svc w) (nonEmpty (appEnvOf w)) (sharedPath (appEnvOf w))
    tr1 params1 None n1 ->
  scope (svc w) (nonEmpty (appNameOf w))
    (appPath (appEnvOf w) (appNameOf w)) tr2 params2 None n2 ->
  (n1 <= fuel)%nat -> (n2 <= fuel)%nat ->
  os_Args w = prog :: args ->
  driver h1 h2 tail fuel w []
  = tail (resolved w seed (params1 ++ params2)) args (tr1 ++ tr2).
Proof.
  intros Hshared Happ Hfuel1 Hfuel2 Hargs. unfold driver.
  erewrite bind_Ret by (by apply run_getOSEnv_ok).
  erewrite bind_Ret by (by eapply shared_ok).
  erewrite bind_Ret by (by eapply app_ok).
  cbv zeta.
  erewrite bind_Ret by (by eapply run_args_ok).
  reflexivity.
Qed.

End Driver.

Lemma Bare_main_driver fuel w :
  Bare.main fuel w
  = driver
      (fun err => fmt_Println2 "Error fetching shared params: " err ;; os_Exit 1)
      (fun err => fmt_Println2 "Error fetching app params: " err ;; os_Exit 1)
      (bareTail w) fuel w.
Proof. reflexivity. Qed.

Lemma Fatal_main_driver fuel w :
  Fatal.main fuel w
  = driver (log_Fatalln2 "Error fetching shared params: ")
      (log_Fatalln2 "Error fetching app params: ") (fatalTail w) fuel w.
Proof. reflexivity. Qed.

Lemma Fuller_main_driver fuel w :
  Fuller.main fuel w
  = driver (log_Fatalln2 "Error fetching shared params: ")
      (log_Fatalln2 "Error fetching app params: ") (fullerTail w) fuel w.
Proof. reflexivity. Qed.

Lemma nonEmpty_false s : nonEmpty s = false <-> s = "".
Proof.
  unfold nonEmpty. rewrite negb_false_iff. apply String.eqb_eq.
Qed.

(** No request is sent exactly when neither scope is configured. *)
Lemma scopes_silent w tr1 params1 r1 n1 tr2 params2 r2 n2 :
  scope (svc w) (nonEmpty (appEnvOf w)) (sharedPath (appEnvOf w))
    tr1 params1 r1 n1 ->
  scope (svc w) (nonEmpty (appNameOf w)) (appPath (appEnvOf w) (appNameOf w))
    tr2 params2 r2 n2 ->
  tr1 ++ tr2 = [] <-> appEnvOf w = "" /\ appNameOf w = "".
Proof.
  intros Hshared Happ.
  destruct (scope_trace _ _ _ _ _ _ _ Hshared) as [H1 _].
  destruct (scope_trace _ _ _ _ _ _ _ Happ) as [H2 _].
  rewrite <- !nonEmpty_false, <- H1, <- H2. split.
  - intros Hnil. by apply app_eq_nil in Hnil.
  - by intros [-> ->].
Qed.

Lemma example_shared_scope args :
  scope (svc (exampleWorld args (pagedStore oneParam)))
    (nonEmpty (appEnvOf (exampleWorld args (pagedStore oneParam))))
    (sharedPath (appEnvOf (exampleWorld args (pagedStore oneParam))))
    (fetchTrace "/prod/" [None]) oneParam None 2.
Proof.
  apply (scope_fetched _ true "/prod/" [None] [oneParam] None).
  - reflexivity.
  - by apply (session_last _ _ _
                {| Parameters := oneParam; resp_NextToken := None |}).
  - simpl. lia.
Defined.

Lemma example_app_scope args store :
  scope (svc (exampleWorld args store))
    (nonEmpty (appNameOf (exampleWorld args store)))
    (appPath (appEnvOf (exampleWorld args store))
       (appNameOf (exampleWorld args store)))
    [] [] None 0.
Proof. by apply scope_skipped. Defined.

Lemma example_failing_scope args err :
  scope (svc (exampleWorld args (failingStore err)))
    (nonEmpty (appEnvOf (exampleWorld args (failingStore err))))
    (sharedPath (appEnvOf (exampleWorld args (failingStore err))))
    (fetchTrace "/prod/" [None]) [] (Some err) 2.
Proof.
  apply (scope_fetched _ true "/prod/" [None] [] (Some err)).
  - reflexivity.
  - by apply session_fail.
  - simpl. lia.
Defined.

Lemma example_seed args store :
  getOSEnv (os_Environ (exampleWorld args store))
  = Some (<["FOO" := "local"]> {[ "APP_ENV" := "prod" ]}).
Proof. reflexivity. Defined.

(** C9. A failing request ends the fetch of its scope with the error and no
    parameter, whatever pages came before, and each request was sent once.
    In every revision of [main] the run then ends with status 1 right after
    the line that names the scope: nothing is fetched, merged or started
    after it. *)
Theorem fetch_error_aborts_the_run :
  (forall client path toks pages err fuel tr,
      session client path None toks pages (Some err) ->
      Z.of_nat (length toks) < 2 ^ 63 ->
      (length toks < fuel)%nat ->
      getParameters fuel (firstCall client path) 0 tr
      = (Ret ([], Some err), tr ++ fetchTrace path toks)
      /\ length toks = S (length pages))
  /\ (forall w seed fuel tr1 params1 err n1,
         getOSEnv (os_Environ w) = Some seed ->
         scope (svc w) (nonEmpty (appEnvOf w)) (sharedPath (appEnvOf w))
           tr1 params1 (Some err) n1 ->
         (n1 <= fuel)%nat ->
         Bare.main fuel w []
         = (Exit 1,
            tr1 ++ [Stdout ("Error fetching shared params: " +:+ " " +:+ err)])
         /\ Fatal.main fuel w []
            = (Exit 1,
               tr1 ++ [Stderr ("Error fetching shared params: " +:+ " " +:+ err)])
         /\ Fuller.main fuel w []
            = (Exit 1,
               tr1 ++ [Stderr ("Error fetching shared params: " +:+ " " +:+ err)]))
  /\ (forall w seed fuel tr1 params1 n1 tr2 params2 err n2,
         getOSEnv (os_Environ w) = Some seed ->
         scope (svc w) (nonEmpty (appEnvOf w)) (sharedPath (appEnvOf w))
           tr1 params1 None n1 ->
         scope (svc w) (nonEmpty (appNameOf w))
           (appPath (appEnvOf w) (appNameOf w)) tr2 params2 (Some err) n2 ->
         (n1 <= fuel)%nat -> (n2 <= fuel)%nat ->
         Bare.main fuel w []
         = (Exit 1,
            tr1 ++ tr2
            ++ [Stdout ("Error fetching app params: " +:+ " " +:+ err)])
         /\ Fatal.main fuel w []
            = (Exit 1,
               tr1 ++ tr2
               ++ [Stderr ("Error fetching app params: " +:+ " " +:+ err)])
         /\ Fuller.main fuel w []
            = (Exit 1,
               tr1 ++ tr2
               ++ [Stderr ("Error fetching app params: " +:+ " " +:+ err)])).
Proof.
  split; [|split].
  - intros client path toks pages err fuel tr Hsession Hbound Hfuel. split.
    + unfold firstCall.
      rewrite (getParameters_session _ _ _ _ _ _ Hsession);
        [reflexivity|exact Hfuel|lia|lia|by left].
    + destruct (session_length _ _ _ _ _ _ Hsession) as [-> _]. lia.
  - intros w seed fuel tr1 params1 err n1 Hseed Hshared Hfuel.
    rewrite Bare_main_driver, Fatal_main_driver, Fuller_main_driver.
    repeat split;
      (eapply driver_shared_fail;
       [exact Hseed|exact Hshared|exact Hfuel|reflexivity]).
  - intros w seed fuel tr1 params1 n1 tr2 params2 err n2 Hseed Hshared Happ
      Hfuel1 Hfuel2.
    rewrite Bare_main_driver, Fatal_main_driver, Fuller_main_driver.
    rewrite !(app_assoc tr1 tr2).
    repeat split;
      (eapply driver_app_fail;
       [exact Hseed|exact Hshared|exact Happ|exact Hfuel1|exact Hfuel2
       |reflexivity]).
Qed.

Lemma fetch_error_aborts_the_run_witness :
  Fuller.main 2 (exampleWorld ["env"] (failingStore "AccessDenied")) []
  = (Exit 1,
     fetchTrace "/prod/" [None]
     ++ [Stderr "Error fetching shared params:  AccessDenied"]).
Proof.
  refine (proj2 (proj2 (proj1 (proj2 fetch_error_aborts_the_run)
                   (exampleWorld ["env"] (failingStore "AccessDenied"))
                   _ 2%nat _ _ "AccessDenied" 2%nat
                   (example_seed _ _) (example_failing_scope _ _) _))).
  lia.
Defined.

(** No revision of [main] does: with [APP_ENV] set the shared scope is
    fetched before the arguments are looked at. *)
Lemma no_revision_stops_before_fetching :
  ¬ stopsBeforeFetching Fuller.main
  /\ ¬ stopsBeforeFetching Fatal.main
  /\ ¬ stopsBeforeFetching Bare.main.
Proof.
  repeat split; intros Hclaim.
  - destruct (Fuller.main 2 (exampleWorld [] (pagedStore oneParam)) [])
      as [r tr] eqn:Hrun.
    pose proof (Hclaim (exampleWorld [] (pagedStore oneParam)) 2%nat
                  "ssm-loader" r tr eq_refl Hrun) as Hstop.
    vm_compute in Hrun. injection Hrun as <- <-.
    destruct Hstop as [_ Hnone]; [discriminate|].
    apply (Hnone (request "/prod/" None)). right. left.
  - destruct (Fatal.main 2 (exampleWorld [] (pagedStore oneParam)) [])
      as [r tr] eqn:Hrun.
    pose proof (Hclaim (exampleWorld [] (pagedStore oneParam)) 2%nat
                  "ssm-loader" r tr eq_refl Hrun) as Hstop.
    vm_compute in Hrun. injection Hrun as <- <-.
    destruct Hstop as [_ Hnone]; [discriminate|].
    apply (Hnone (request "/prod/" None)). right. left.
  - destruct (Bare.main 2 (exampleWorld [] (pagedStore oneParam)) [])
      as [r tr] eqn:Hrun.
    pose proof (Hclaim (exampleWorld [] (pagedStore oneParam)) 2%nat
                  "ssm-loader" r tr eq_refl Hrun) as Hstop.
    vm_compute in Hrun. injection Hrun as <- <-.
    destruct Hstop as [_ Hnone]; [discriminate|].
    apply (Hnone (request "/prod/" None)). right. left.
Qed.

(** C2, amended. In a run without arguments after the program name, the
    configured scopes are fetched first. When these fetches succeed, the
    run then ends without a child being started: the revision that tests
    the number of arguments with [log.Fatalln] ends with status 1 after the
    line [ssm-loader requires a command to run], the fuller revision prints
    the usage text and ends with status 0. No request is sent only when
    neither scope is configured. *)
Theorem no_command_stops_after_the_fetches
    (w : World) (seed : paramMap) (fuel : nat) (prog : string)
    (tr1 tr2 : list event) (params1 params2 : list ssm_Parameter)
    (n1 n2 : nat) :
  getOSEnv (os_Environ w) = Some seed ->
  os_Args w = [prog] ->
  scope (svc w) (nonEmpty (appEnvOf w)) (sharedPath (appEnvOf w))
    tr1 params1 None n1 ->
  scope (svc w) (nonEmpty (appNameOf w)) (appPath (appEnvOf w) (appNameOf w))
    tr2 params2 None n2 ->
  (n1 <= fuel)%nat -> (n2 <= fuel)%nat ->
  Fatal.main fuel w []
  = (Exit 1, tr1 ++ tr2 ++ [Stderr "ssm-loader requires a command to run"])
  /\ Fuller.main fuel w []
     = (Exit 0, tr1 ++ tr2 ++ (Stdout <$> Fuller.usage))
  /\ (tr1 ++ tr2 = [] <-> appEnvOf w = "" /\ appNameOf w = "").
Proof.
  intros Hseed Hargs Hshared Happ Hfuel1 Hfuel2.
  rewrite Fatal_main_driver, Fuller_main_driver.
  rewrite !(driver_ok _ _ _ w seed fuel Hseed _ _ _ _ _ _ prog []
              Hshared Happ Hfuel1 Hfuel2 Hargs).
  split; [|split].
  - unfold fatalTail. cbn [length Nat.eqb].
    by rewrite log_Fatalln_run, <- app_assoc.
  - unfold fullerTail. cbn [length Nat.eqb orb].
    erewrite bind_Ret by apply printAll_run.
    by rewrite <- app_assoc.
  - by eapply scopes_silent.
Qed.

Lemma no_command_stops_after_the_fetches_witness :
  Fatal.main 2 (exampleWorld [] (pagedStore oneParam)) []
  = (Exit 1,
     fetchTrace "/prod/" [None] ++ []
     ++ [Stderr "ssm-loader requires a command to run"])
  /\ Fuller.main 2 (exampleWorld [] (pagedStore oneParam)) []
     = (Exit 0, fetchTrace "/prod/" [None] ++ [] ++ (Stdout <$> Fuller.usage)).
Proof.
  destruct (no_command_stops_after_the_fetches
              (exampleWorld [] (pagedStore oneParam)) _ 2 "ssm-loader"
              _ _ _ _ _ _
              (example_seed _ _) eq_refl
              (example_shared_scope _) (example_app_scope _ _))
    as (Hfatal & Hfuller & _); [lia|lia|].
  split; [exact Hfatal|exact Hfuller].
Defined.

(** With [APP_ENV] set the shared scope is fetched before the usage text is
    printed. *)
Lemma help_sends_requests : ¬ helpSendsNoRequest.
Proof.
  intros Hclaim.
  destruct (Fuller.main 2 (exampleWorld ["-h"] (pagedStore oneParam)) [])
    as [r tr] eqn:Hrun.
  pose proof (Hclaim (exampleWorld ["-h"] (pagedStore oneParam)) 2%nat
                "ssm-loader" ["-h"] r tr eq_refl (or_introl eq_refl) Hrun)
    as Hstop.
  vm_compute in Hrun. injection Hrun as <- <-.
  destruct Hstop as (_ & _ & Hnone); [discriminate|].
  apply (Hnone (request "/prod/" None)). right. left.
Qed.

(** C4, amended. In the fuller revision, when [-h] or [--help] is among the
    arguments, the configured scopes are fetched first; when these fetches
    succeed the usage text is printed and the run ends with status 0,
    without a child being started. No request is sent only when neither
    scope is configured. *)
Theorem help_prints_usage_after_the_fetches
    (w : World) (seed : paramMap) (fuel : nat) (prog : string)
    (args : list string)
    (tr1 tr2 : list event) (params1 params2 : list ssm_Parameter)
    (n1 n2 : nat) :
  getOSEnv (os_Environ w) = Some seed ->
  os_Args w = prog :: args ->
  contains args "-h" = true \/ contains args "--help" = true ->
  scope (svc w) (nonEmpty (appEnvOf w)) (sharedPath (appEnvOf w))
    tr1 params1 None n1 ->
  scope (svc w) (nonEmpty (appNameOf w)) (appPath (appEnvOf w) (appNameOf w))
    tr2 params2 None n2 ->
  (n1 <= fuel)%nat -> (n2 <= fuel)%nat ->
  Fuller.main fuel w []
  = (Exit 0, tr1 ++ tr2 ++ (Stdout <$> Fuller.usage))
  /\ (tr1 ++ tr2 = [] <-> appEnvOf w = "" /\ appNameOf w = "").
Proof.
  intros Hseed Hargs Hhelp Hshared Happ Hfuel1 Hfuel2.
  rewrite Fuller_main_driver.
  rewrite (driver_ok _ _ _ w seed fuel Hseed _ _ _ _ _ _ prog args
             Hshared Happ Hfuel1 Hfuel2 Hargs).
  split; [|by eapply scopes_silent].
  unfold fullerTail.
  assert (Htest : (length args =? 0)%nat || contains args "-h"
                  || contains args "--help" = true).
  { destruct Hhelp as [-> | ->]; [|apply orb_true_r].
    by rewrite orb_true_r. }
  rewrite Htest.
  erewrite bind_Ret by apply printAll_run.
  by rewrite <- app_assoc.
Qed.

Lemma help_prints_usage_after_the_fetches_witness :
  Fuller.main 2 (exampleWorld ["-h"] (pagedStore oneParam)) []
  = (Exit 0, fetchTrace "/prod/" [None] ++ [] ++ (Stdout <$> Fuller.usage)).
Proof.
  refine (proj1 (help_prints_usage_after_the_fetches
                   (exampleWorld ["-h"] (pagedStore oneParam)) _ 2
                   "ssm-loader" ["-h"] _ _ _ _ _ _
                   (example_seed _ _) eq_refl (or_introl eq_refl)
                   (example_shared_scope _) (example_app_scope _ _) _ _));
    lia.
Defined.

(** * Further properties *)

(** ** Membership among the arguments *)

(** X1. [contains] answers whether the string is one of the elements of the
    slice. *)
Theorem contains_iff_elem (a : list string) (x : string) :
  contains a x = true <-> x ∈ a.
Proof.
  induction a as [|n a IH]; simpl.
  - split; [discriminate|]. by intros ?%elem_of_nil.
  - rewrite elem_of_cons. destruct (String.eqb x n) eqn:Hxn.
    + apply String.eqb_eq in Hxn. split; [by left|done].
    + apply String.eqb_neq in Hxn. rewrite IH. split; [by right|].
      by intros [?|?].
Qed.

(** ** Seeding, beyond well-formed environments *)

Section SeedEdges.

Implicit Types (e k v : string) (environ : list string) (m : paramMap).

Lemma SplitN2_no_sep e sep :
  strings.ContainsByte e sep = false -> strings.SplitN2 e sep = [e].
Proof.
  induction e as [|a e IH]; simpl; [done|].
  intros Hno. apply orb_false_elim in Hno as [Ha He].
  by rewrite Ha, IH.
Qed.

(** What one more entry does to the seeded namespace. *)
Lemma getOSEnv_snoc_Some environ e m :
  getOSEnv (environ ++ [e]) = Some m <->
  exists m0, getOSEnv environ = Some m0
             /\ strings.ContainsByte e "=" = true
             /\ m = <[envName e := envValue e]> m0.
Proof.
  rewrite getOSEnv_snoc. unfold envName, envValue.
  destruct (getOSEnv environ) as [m0|]; simpl.
  - destruct (strings.ContainsByte e "=") eqn:He.
    + destruct (SplitN2_sep e "=" He) as (k & v & -> & _). simpl. split.
      * intros [= <-]. by exists m0.
      * intros (m1 & [= <-] & _ & ->). reflexivity.
    + rewrite (SplitN2_no_sep e "=" He). simpl. split; [discriminate|].
      by intros (? & _ & ? & _).
  - split; [discriminate|]. by intros (? & ? & _).
Qed.

Lemma getOSEnv_None_iff environ :
  getOSEnv environ = None
  <-> Exists (fun e => strings.ContainsByte e "=" = false) environ.
Proof.
  induction environ as [|e environ IH] using rev_ind.
  - split; [discriminate|]. by intros ?%Exists_nil.
  - rewrite Exists_app, Exists_cons, Exists_nil, <- IH.
    destruct (getOSEnv (environ ++ [e])) as [m|] eqn:Hm.
    + apply getOSEnv_snoc_Some in Hm as (m0 & Hm0 & He & _).
      rewrite Hm0, He. split; [discriminate|]. by intros [?|[?|[]]].
    + split; [|done]. intros _.
      destruct (getOSEnv environ) as [m0|] eqn:Hm0; [|by left].
      right. left.
      destruct (strings.ContainsByte e "=") eqn:He; [|reflexivity].
      assert (Hsome : getOSEnv (environ ++ [e])
                      = Some (<[envName e := envValue e]> m0))
        by (apply getOSEnv_snoc_Some; by exists m0).
      congruence.
Qed.



End SeedEdges.

(** X2. [getOSEnv] fails (the index-out-of-range panic of [pair[1]])
    exactly when some entry of the environment holds no equals sign; every
    revision of [main] then panics before it has sent a request or printed
    a line. *)
Theorem seeding_panics_without_equals_sign :
  (forall environ,
      getOSEnv environ = None
      <-> Exists (fun e => strings.ContainsByte e "=" = false) environ)
  /\ (forall w fuel,
         Exists (fun e => strings.ContainsByte e "=" = false) (os_Environ w) ->
         Bare.main fuel w [] = (Panic "index out of range", [])
         /\ Fatal.main fuel w [] = (Panic "index out of range", [])
         /\ Fuller.main fuel w [] = (Panic "index out of range", [])).
Proof.
  split; [exact getOSEnv_None_iff|].
  intros w fuel Hbad. apply getOSEnv_None_iff in Hbad.
  assert (Hrun : run_getOSEnv w [] = (Panic "index out of range", []))
    by (unfold run_getOSEnv; by rewrite Hbad).
  repeat split; by apply bind_Panic.
Qed.

Lemma seeding_panics_without_equals_sign_witness :
  Fatal.main 3
    {| os_Environ := ["APP_ENV=prod"; "BROKEN"];
       os_Args := ["ssm-loader"; "env"];
       svc := pagedStore oneParam;
       rangeInterpolations := fun m => (map_to_list m).*1;
       rangeStringArray := fun m => (map_to_list m).*1;
       child := fun _ _ _ => (None, None) |} []
  = (Panic "index out of range", []).
Proof.
  refine (proj1 (proj2 (proj2 seeding_panics_without_equals_sign _ 3%nat _))).
  right. left. reflexivity.
Defined.



(** ** The merge as a union *)

Section MergeAlgebra.

Implicit Types (m : paramMap) (params : list ssm_Parameter).

Lemma batchMap_cons param params :
  batchMap (param :: params)
  = <[bareName param := Value param]> (batchMap params).
Proof. reflexivity. Qed.

Lemma batchMap_app params1 params2 :
  batchMap (params1 ++ params2) = batchMap params1 ∪ batchMap params2.
Proof. unfold batchMap. by rewrite fmap_app, list_to_map_app. Qed.

Lemma batchMap_dom params :
  dom (batchMap params) = list_to_set (bareName <$> params).
Proof.
  induction params as [|param params IH].
  - change (batchMap []) with (∅ : paramMap). by rewrite dom_empty_L.
  - by rewrite batchMap_cons, dom_insert_L, IH.
Qed.

Lemma addParam_union m param (rest : paramMap) :
  addParam m param ∪ rest
  = m ∪ <[bareName param := Value param]> rest.
Proof.
  unfold addParam. cbv zeta.
  destruct (m !! bareName param) as [v|] eqn:Hk.
  - apply map_eq. intros j. rewrite !lookup_union.
    destruct (decide (bareName param = j)) as [<-|Hne].
    + rewrite Hk, lookup_insert_eq. by destruct (rest !! bareName param).
    + by rewrite lookup_insert_ne.
  - by rewrite <- insert_union_l, insert_union_r.
Qed.

(** Merging a batch is the union of the namespace, which wins, with the
    batch as a map. *)
Lemma AddParams_union m params : AddParams m params = m ∪ batchMap params.
Proof.
  revert m. induction params as [|param params IH]; intros m.
  - rewrite AddParams_nil. change (batchMap []) with (∅ : paramMap).
    by rewrite (right_id_L ∅ (∪)).
  - by rewrite AddParams_cons, IH, addParam_union, batchMap_cons.
Qed.

End MergeAlgebra.

(** X4. Merging a batch is a left-biased union: the namespace wins over the
    batch, and inside the batch the first parameter of a bare name wins.
    Merging the shared batch followed by the app batch, as [main] does,
    layers the three sources in this order. *)
Theorem merge_is_left_biased_union :
  (forall (m : paramMap) params, AddParams m params = m ∪ batchMap params)
  /\ (forall (seed : paramMap) sharedParams appParams,
         AddParams seed (sharedParams ++ appParams)
         = seed ∪ batchMap sharedParams ∪ batchMap appParams).
Proof.
  split; [exact AddParams_union|].
  intros seed sharedParams appParams.
  by rewrite AddParams_union, batchMap_app, (assoc_L (∪)).
Qed.

(** X5. After a merge the keys of the namespace are those it had and the
    bare names of the batch, and no other; its size never shrinks. *)
Theorem merge_adds_the_bare_names (m : paramMap)
    (params : list ssm_Parameter) :
  dom (AddParams m params) = dom m ∪ list_to_set (bareName <$> params)
  /\ (size m <= size (AddParams m params))%nat.
Proof.
  rewrite AddParams_union. split.
  - by rewrite dom_union_L, batchMap_dom.
  - apply map_subseteq_size, map_union_subseteq_l.
Qed.

(** X6. A batch whose bare names the namespace all holds changes nothing;
    hence merging the same batch a second time changes nothing. *)
Theorem merge_absorbs_known_names (m : paramMap)
    (params : list ssm_Parameter) :
  (Forall (fun param => is_Some (m !! bareName param)) params ->
   AddParams m params = m)
  /\ AddParams (AddParams m params) params = AddParams m params.
Proof.
  split.
  - intros Hknown. revert m Hknown.
    induction params as [|param params IH]; intros m Hknown; [reflexivity|].
    apply Forall_cons in Hknown as [[v Hv] Hknown].
    rewrite AddParams_cons. unfold addParam. cbv zeta. rewrite Hv.
    by apply IH.
  - rewrite !AddParams_union, <- (assoc_L (∪)).
    by rewrite (idemp_L (∪) (batchMap params)).
Qed.

Lemma merge_absorbs_known_names_witness :
  AddParams {[ "FOO" := "local" ]}
    [ {| Name := "/prod/FOO"; Value := "remote" |} ]
  = {[ "FOO" := "local" ]}.
Proof.
  apply (proj1 (merge_absorbs_known_names {[ "FOO" := "local" ]}
                  [ {| Name := "/prod/FOO"; Value := "remote" |} ])).
  repeat constructor. by exists "local".
Defined.

(** ** The bare name *)

Section BareName.

Implicit Types (s : string) (sep : ascii).

Lemma Split_cons a s sep :
  strings.Split (String a s) sep
  = if Ascii.eqb a sep then "" :: strings.Split s sep
    else match strings.Split s sep with
         | h :: t => String a h :: t
         | [] => [String a ""]
         end.
Proof. reflexivity. Qed.

Lemma Split_no_sep s sep :
  strings.ContainsByte s sep = false -> strings.Split s sep = [s].
Proof.
  induction s as [|a s IH]; simpl; [done|].
  intros Hno. apply orb_false_elim in Hno as [Ha Hs].
  by rewrite Ha, IH.
Qed.

Lemma Split_two s sep :
  strings.ContainsByte s sep = true ->
  exists h x t, strings.Split s sep = h :: x :: t.
Proof.
  induction s as [|a s IH]; simpl; [discriminate|].
  destruct (Ascii.eqb a sep) eqn:Ha; simpl.
  - intros _. destruct (strings.ContainsByte s sep) eqn:Hs.
    + destruct (IH eq_refl) as (h & x & t & ->). by exists "", h, (x :: t).
    + rewrite (Split_no_sep s sep Hs). by exists "", s, [].
  - intros Hs. destruct (IH Hs) as (h & x & t & ->).
    by exists (String a h), x, t.
Qed.

(** The last segment of [s]: what [bareName] takes from a name. *)
Lemma last_Split s sep :
  exists dir seg,
    last (strings.Split s sep) = Some seg
    /\ s = dir +:+ seg
    /\ strings.ContainsByte seg sep = false
    /\ (strings.ContainsByte s sep = false -> dir = "")
    /\ (strings.ContainsByte s sep = true ->
        exists d, dir = d +:+ String sep "").
Proof.
  induction s as [|a s (dir & seg & Hlast & Hs & Hseg & Hnone & Hsome)].
  - exists "", "". split; [reflexivity|]. split; [reflexivity|].
    split; [reflexivity|]. split; [reflexivity|]. discriminate.
  - destruct (strings.ContainsByte s sep) eqn:Hsep.
    + destruct (Hsome eq_refl) as [d ->].
      destruct (Split_two s sep Hsep) as (h & x & t & Hsplit).
      exists (String a (d +:+ String sep "")), seg.
      split; [|split; [by rewrite Hs|split; [exact Hseg|split]]].
      * simpl. rewrite Hsplit in Hlast |- *.
        by destruct (Ascii.eqb a sep).
      * simpl. rewrite Hsep, orb_true_r. discriminate.
      * intros _. by exists (String a d).
    + rewrite (Hnone eq_refl) in Hs. simpl in Hs. subst seg.
      destruct (Ascii.eqb a sep) eqn:Ha.
      * exists (String a ""), s.
        split; [simpl; by rewrite Ha, (Split_no_sep s sep Hsep)|].
        split; [reflexivity|]. split; [exact Hsep|].
        split; [simpl; rewrite Ha; discriminate|].
        intros _. exists "". simpl. by apply Ascii.eqb_eq in Ha as ->.
      * exists "", (String a s).
        split; [simpl; by rewrite Ha, (Split_no_sep s sep Hsep)|].
        split; [reflexivity|]. split; [simpl; by rewrite Ha, Hsep|].
        split; [reflexivity|]. simpl. rewrite Ha, Hsep. discriminate.
Qed.

End BareName.

(** X7. The bare name of a parameter is the part of its hierarchical name
    after the last slash: it holds no slash, the name is a directory part
    followed by it, and the directory part is empty when the name holds no
    slash and ends in a slash otherwise. A name without a slash is its own
    bare name; a name that ends in a slash has the empty bare name. *)
Theorem bareName_is_last_segment (param : ssm_Parameter) :
  strings.ContainsByte (bareName param) "/" = false
  /\ (exists dir,
         Name param = dir +:+ bareName param
         /\ (strings.ContainsByte (Name param) "/" = false -> dir = "")
         /\ (strings.ContainsByte (Name param) "/" = true ->
             exists d, dir = d +:+ "/"))
  /\ (forall dir seg,
         Name param = dir +:+ "/" +:+ seg ->
         strings.ContainsByte seg "/" = false ->
         bareName param = seg).
Proof.
  unfold bareName. cbv zeta.
  destruct (last_Split (Name param) "/")
    as (dir & seg & Hlast & Hname & Hseg & Hnone & Hsome).
  rewrite Hlast. simpl. split; [exact Hseg|]. split.
  - by exists dir.
  - intros dir' seg' Hname' Hseg'. rewrite Hname' in Hlast.
    clear -Hlast Hseg'.
    assert (Hgen : forall t, last (strings.Split (dir' +:+ "/" +:+ seg') "/")
                             = Some t -> t = seg').
    { clear Hlast. induction dir' as [|a dir' IH]; intros t.
      - simpl. rewrite (Split_no_sep seg' "/" Hseg'). by intros [= <-].
      - change (String a dir' +:+ "/" +:+ seg')
          with (String a (dir' +:+ "/" +:+ seg')).
        assert (Hsep : strings.ContainsByte (dir' +:+ "/" +:+ seg') "/" = true).
        { clear. induction dir' as [|b dir' IH]; [reflexivity|].
          simpl in IH |- *. by rewrite IH, orb_true_r. }
        destruct (Split_two _ _ Hsep) as (h & x & u & Hsplit).
        rewrite Split_cons. rewrite Hsplit in IH |- *.
        destruct (Ascii.eqb a "/"); exact (IH t). }
    by apply Hgen.
Qed.

Lemma bareName_is_last_segment_witness :
  bareName {| Name := "/prod/app/DB_HOST"; Value := "db" |} = "DB_HOST".
Proof.
  apply (proj2 (proj2 (bareName_is_last_segment
                         {| Name := "/prod/app/DB_HOST"; Value := "db" |}))
           "/prod/app" "DB_HOST"); reflexivity.
Defined.

(** ** What the pattern matches *)

Section PatternFacts.

Implicit Types (s t name pre post : string) (k : string -> option nat).

Lemma matchK_Lit_cons c a s k :
  matchK (Lit c) (String a s) k = if Ascii.eqb a c then S <$> k s else None.
Proof. reflexivity. Qed.

Lemma matchK_Lit_nil c k : matchK (Lit c) "" k = None.
Proof. reflexivity. Qed.

Lemma closing_delimiter t : closing (String "%" (String "%" t)) = Some 2%nat.
Proof. reflexivity. Qed.

Lemma closing_inv s n :
  closing s = Some n -> exists t, s = String "%" (String "%" t) /\ n = 2%nat.
Proof.
  unfold closing. rewrite matchK_Cat.
  destruct s as [|a s]; [done|]. rewrite matchK_Lit_cons.
  destruct (Ascii.eqb a "%") eqn:Ha; [|done].
  apply Ascii.eqb_eq in Ha as ->.
  destruct s as [|b s]; [done|]. rewrite matchK_Lit_cons.
  destruct (Ascii.eqb b "%") eqn:Hb; [|done].
  apply Ascii.eqb_eq in Hb as ->. intros [= <-]. by exists s.
Qed.

Lemma greedyDot_cons k a s :
  greedyDot k (String a s)
  = if Ascii.eqb a newline then k (String a s)
    else match S <$> greedyDot k s with
         | Some n => Some n
         | None => k (String a s)
         end.
Proof. reflexivity. Qed.

(** A match of dot-star and the closing delimiter ends at a delimiter that
    follows a run without newline. *)
Lemma greedyDot_closing_inv t n :
  greedyDot closing t = Some n ->
  exists name rest,
    t = name +:+ "%%" +:+ rest
    /\ strings.ContainsByte name newline = false
    /\ n = (String.length name + 2)%nat.
Proof.
  revert n. induction t as [|a t IH]; intros n.
  - cbn [greedyDot]. intros Hc. by apply closing_inv in Hc as (? & ? & _).
  - rewrite greedyDot_cons.
    assert (Hhere : closing (String a t) = Some n ->
                    exists name rest,
                      String a t = name +:+ "%%" +:+ rest
                      /\ strings.ContainsByte name newline = false
                      /\ n = (String.length name + 2)%nat).
    { intros Hc. apply closing_inv in Hc as (t' & -> & ->). by exists "", t'. }
    destruct (Ascii.eqb a newline) eqn:Ha; [exact Hhere|].
    destruct (greedyDot closing t) as [n'|]; [|exact Hhere].
    intros [= <-]. destruct (IH n' eq_refl) as (name & rest & -> & Hnl & ->).
    exists (String a name), rest. simpl. by rewrite Ha, Hnl.
Qed.

(** Where a delimiter follows a run without newline, there is a match, and
    it reaches at least that far. *)
Lemma greedyDot_closing_complete name rest :
  strings.ContainsByte name newline = false ->
  exists n, greedyDot closing (name +:+ "%%" +:+ rest) = Some n
            /\ (String.length name + 2 <= n)%nat.
Proof.
  induction name as [|a name IH]; intros Hnl.
  - change ("" +:+ "%%" +:+ rest) with (String "%" (String "%" rest)).
    rewrite greedyDot_cons. change (Ascii.eqb "%" newline) with false.
    destruct (greedyDot closing (String "%" rest)) as [n'|] eqn:Hin.
    + exists (S n'). split; [reflexivity|].
      apply greedyDot_closing_inv in Hin as (? & ? & _ & _ & ->). simpl. lia.
    + exists 2%nat. split; [reflexivity|]. simpl. lia.
  - simpl in Hnl. apply orb_false_elim in Hnl as [Ha Hnl].
    destruct (IH Hnl) as (n & Hn & Hle).
    exists (S n). split; [|simpl; lia].
    change (String a name +:+ "%%" +:+ rest)
      with (String a (name +:+ "%%" +:+ rest)).
    by rewrite greedyDot_cons, Ha, Hn.
Qed.

Lemma greedyDot_closing_None s :
  strings.ContainsByte s "%" = false -> greedyDot closing s = None.
Proof.
  induction s as [|a s IH]; [reflexivity|].
  simpl. intros Hno. apply orb_false_elim in Hno as [Ha Hs].
  assert (Hhere : closing (String a s) = None).
  { destruct (closing (String a s)) as [n|] eqn:Hc; [|reflexivity].
    apply closing_inv in Hc as (t & [= -> _] & _). discriminate. }
  rewrite IH by exact Hs. rewrite Hhere. by destruct (Ascii.eqb a newline).
Qed.

(** With no percent sign after the delimiter, the match ends at it. *)
Lemma greedyDot_closing_exact name post :
  strings.ContainsByte name newline = false ->
  strings.ContainsByte post "%" = false ->
  greedyDot closing (name +:+ "%%" +:+ post)
  = Some (String.length name + 2)%nat.
Proof.
  intros Hnl Hpost. induction name as [|a name IH].
  - change ("" +:+ "%%" +:+ post) with (String "%" (String "%" post)).
    rewrite greedyDot_cons. change (Ascii.eqb "%" newline) with false.
    rewrite greedyDot_cons. change (Ascii.eqb "%" newline) with false.
    rewrite greedyDot_closing_None by exact Hpost. simpl.
    destruct (closing (String "%" post)) as [n|] eqn:Hc; [|reflexivity].
    apply closing_inv in Hc as (t & [= ->] & _).
    simpl in Hpost. discriminate.
  - simpl in Hnl. apply orb_false_elim in Hnl as [Ha Hnl].
    change (String a name +:+ "%%" +:+ post)
      with (String a (name +:+ "%%" +:+ post)).
    by rewrite greedyDot_cons, Ha, IH.
Qed.

(** A match of [paramInterpolation] at the head of a text: the opening
    delimiter, then dot-star and the closing delimiter. *)
Lemma matchHere_delimiter t :
  matchHere paramInterpolation (String "%" (String "%" t))
  = S <$> (S <$> greedyDot closing t).
Proof.
  unfold matchHere, paramInterpolation.
  rewrite matchK_Cat, matchK_Lit_eq, matchK_Cat, matchK_Lit_eq, matchK_Cat.
  by rewrite matchK_Star_Dot.
Qed.

Lemma matchHere_inv s n :
  matchHere paramInterpolation s = Some n ->
  exists t m, s = String "%" (String "%" t)
              /\ greedyDot closing t = Some m /\ n = S (S m).
Proof.
  destruct s as [|a s]; [done|].
  destruct (Ascii.eqb a "%") eqn:Ha.
  - apply Ascii.eqb_eq in Ha as ->. destruct s as [|b s]; [done|].
    destruct (Ascii.eqb b "%") eqn:Hb.
    + apply Ascii.eqb_eq in Hb as ->. rewrite matchHere_delimiter.
      destruct (greedyDot closing s) as [m|] eqn:Hg; [|done].
      simpl. intros [= <-]. by exists s, m.
    + unfold matchHere, paramInterpolation.
      rewrite matchK_Cat, matchK_Lit_eq, matchK_Cat, matchK_Lit_cons.
      by rewrite Hb.
  - unfold matchHere, paramInterpolation.
    rewrite matchK_Cat, matchK_Lit_cons. by rewrite Ha.
Qed.

Lemma matchHere_not_percent a s :
  Ascii.eqb a "%" = false ->
  matchHere paramInterpolation (String a s) = None.
Proof.
  intros Ha. destruct (matchHere _ _) as [n|] eqn:Hm; [|reflexivity].
  apply matchHere_inv in Hm as (t & m & [= -> _] & _). discriminate.
Qed.

Lemma MatchString_unfold s :
  MatchString paramInterpolation s
  = match matchHere paramInterpolation s with
    | Some _ => true
    | None => match s with
              | EmptyString => false
              | String _ s' => MatchString paramInterpolation s'
              end
    end.
Proof. by destruct s. Qed.

Lemma MatchString_no_percent s :
  strings.ContainsByte s "%" = false ->
  MatchString paramInterpolation s = false.
Proof.
  induction s as [|a s IH]; [reflexivity|].
  intros Hno. simpl in Hno. apply orb_false_elim in Hno as [Ha Hs].
  rewrite MatchString_unfold, matchHere_not_percent by exact Ha.
  by apply IH.
Qed.

(** The pattern never matches the empty text, so the flag of the loop of
    [ReplaceAllStringFunc] plays no part. *)
Lemma replaceFrom_flag repl s b :
  replaceFrom paramInterpolation repl s O b
  = replaceFrom paramInterpolation repl s O false.
Proof.
  destruct s as [|a s]; simpl.
  - destruct (matchHere paramInterpolation "") as [n|] eqn:Hm; [|done].
    by apply matchHere_inv in Hm as (? & ? & ? & _).
  - destruct (matchHere paramInterpolation (String a s)) as [[|n]|] eqn:Hm;
      [|done|done].
    by apply matchHere_inv in Hm as (? & ? & _ & _ & ?).
Qed.

Lemma replaceFrom_copy repl pre s b b' :
  strings.ContainsByte pre "%" = false ->
  replaceFrom paramInterpolation repl (pre +:+ s) O b
  = pre +:+ replaceFrom paramInterpolation repl s O b'.
Proof.
  revert b. induction pre as [|a pre IH]; intros b Hno.
  - simpl. by rewrite (replaceFrom_flag _ _ b), (replaceFrom_flag _ _ b').
  - simpl in Hno. apply orb_false_elim in Hno as [Ha Hno].
    change (String a pre +:+ s) with (String a (pre +:+ s)).
    cbn [replaceFrom]. rewrite matchHere_not_percent by exact Ha.
    by rewrite (IH false Hno).
Qed.

Lemma replaceFrom_skip r repl x y :
  replaceFrom r repl (x +:+ y) (String.length x) true
  = replaceFrom r repl y O true.
Proof. induction x as [|a x IH]; [reflexivity|exact IH]. Qed.

Lemma take_app x y : strings.take (String.length x) (x +:+ y) = x.
Proof. induction x as [|a x IH]; simpl; [by destruct y|by rewrite IH]. Qed.

Lemma append_assoc_string x y z : (x +:+ y) +:+ z = x +:+ y +:+ z.
Proof. induction x as [|a x IH]; simpl; [reflexivity|by rewrite IH]. Qed.

Lemma length_append x y :
  String.length (x +:+ y) = (String.length x + String.length y)%nat.
Proof. induction x as [|a x IH]; simpl; [reflexivity|by rewrite IH]. Qed.

(** One token between texts without percent sign: the texts are copied and
    the token is handed to the callback. *)
Lemma ReplaceAllStringFunc_one_token repl pre name post :
  strings.ContainsByte pre "%" = false ->
  strings.ContainsByte name newline = false ->
  strings.ContainsByte post "%" = false ->
  ReplaceAllStringFunc paramInterpolation
    (pre +:+ "%%" +:+ name +:+ "%%" +:+ post) repl
  = pre +:+ repl ("%%" +:+ name +:+ "%%") +:+ post.
Proof.
  intros Hpre Hname Hpost. unfold ReplaceAllStringFunc.
  rewrite (replaceFrom_copy repl pre _ false false Hpre). f_equal.
  change ("%%" +:+ name +:+ "%%" +:+ post)
    with (String "%" (String "%" (name +:+ "%%" +:+ post))).
  cbn [replaceFrom]. rewrite matchHere_delimiter.
  rewrite (greedyDot_closing_exact name post Hname Hpost).
  cbn [fmap option_fmap option_map].
  change (String "%" (String "%" (name +:+ "%%" +:+ post)))
    with (("%%" +:+ name) +:+ "%%" +:+ post).
  rewrite <- (append_assoc_string ("%%" +:+ name) "%%" post).
  assert (Hlen : S (S (String.length name + 2))
                 = String.length (("%%" +:+ name) +:+ "%%")).
  { rewrite length_append. simpl. lia. }
  rewrite Hlen, take_app.
  rewrite (append_assoc_string "%%" name "%%").
  rewrite <- (append_assoc_string name "%%" post).
  assert (Hskip : (String.length name + 2)%nat
                  = String.length (name +:+ "%%")).
  { rewrite length_append. reflexivity. }
  rewrite Hskip, replaceFrom_skip.
  rewrite replaceFrom_no_match by (by apply MatchString_no_percent).
  reflexivity.
Qed.

End PatternFacts.

(** X8. A value holds a match of [paramInterpolation] exactly when it holds
    two delimiters with no newline between them: an opening pair of percent
    signs, a run of bytes without newline, a closing pair. *)
Theorem pattern_matches_iff_two_delimiters_on_a_line (value : string) :
  MatchString paramInterpolation value = true
  <-> exists pre name post,
        value = pre +:+ "%%" +:+ name +:+ "%%" +:+ post
        /\ strings.ContainsByte name newline = false.
Proof.
  split.
  - induction value as [|a value IH]; rewrite MatchString_unfold.
    + destruct (matchHere paramInterpolation "") as [n|] eqn:Hm; [|done].
      by apply matchHere_inv in Hm as (? & ? & ? & _).
    + destruct (matchHere paramInterpolation (String a value)) as [n|] eqn:Hm.
      * intros _. apply matchHere_inv in Hm as (t & m & -> & Hg & _).
        apply greedyDot_closing_inv in Hg as (name & rest & -> & Hnl & _).
        by exists "", name, rest.
      * intros Hrest. destruct (IH Hrest) as (pre & name & post & -> & Hnl).
        by exists (String a pre), name, post.
  - intros (pre & name & post & -> & Hnl).
    induction pre as [|a pre IH]; rewrite MatchString_unfold.
    + change ("" +:+ "%%" +:+ name +:+ "%%" +:+ post)
        with (String "%" (String "%" (name +:+ "%%" +:+ post))).
      rewrite matchHere_delimiter.
      by destruct (greedyDot_closing_complete name post Hnl) as (n & -> & _).
    + change (String a pre +:+ "%%" +:+ name +:+ "%%" +:+ post)
        with (String a (pre +:+ "%%" +:+ name +:+ "%%" +:+ post)).
      by destruct (matchHere paramInterpolation _).
Qed.

(** X9. A value that is one token between two texts without percent sign
    resolves to the two texts around the value stored under the name
    (trimmed of percent signs), or around nothing when the name is no key. *)
Theorem one_token_is_replaced_in_place (m : paramMap)
    (pre name post : string) :
  strings.ContainsByte pre "%" = false ->
  strings.ContainsByte name newline = false ->
  strings.ContainsByte post "%" = false ->
  interpolate m (pre +:+ "%%" +:+ name +:+ "%%" +:+ post)
  = pre +:+ default "" (m !! strings.Trim name "%") +:+ post.
Proof.
  intros Hpre Hname Hpost. unfold interpolate.
  rewrite ReplaceAllStringFunc_one_token by assumption.
  unfold lookupVar.
  change ("%%" +:+ name +:+ "%%")
    with (String "%" (String "%" (name +:+ String "%" (String "%" "")))).
  rewrite Trim_token. by destruct (m !! strings.Trim name "%").
Qed.

Lemma one_token_is_replaced_in_place_witness :
  interpolate {[ "HOST" := "db.internal" ]}
    ("postgres://" +:+ "%%" +:+ "HOST" +:+ "%%" +:+ ":5432/app")
  = "postgres://" +:+ "db.internal" +:+ ":5432/app".
Proof.
  etrans.
  - apply (one_token_is_replaced_in_place {[ "HOST" := "db.internal" ]}
             "postgres://" "HOST" ":5432/app"); reflexivity.
  - reflexivity.
Defined.

(** X10. A namespace in which no value holds a match comes out of the
    resolver unchanged; so does, in any namespace, every entry whose value
    holds no percent sign. *)
Theorem resolver_leaves_plain_values (m m' : paramMap) :
  ReplaceInterpolations m m' ->
  ((forall k v, m !! k = Some v -> MatchString paramInterpolation v = false) ->
   m' = m)
  /\ (forall k v,
         m !! k = Some v ->
         strings.ContainsByte v "%" = false ->
         m' !! k = Some v).
Proof.
  intros (order & _ & ->). split.
  - intros Hplain. apply map_eq. intros k.
    destruct (m !! k) as [v|] eqn:Hk.
    + apply ReplaceInterpolations_in_fixed; [|exact Hk].
      intros m''. apply interpolate_no_match. by eapply Hplain.
    + by apply ReplaceInterpolations_in_None.
  - intros k v Hk Hv. apply ReplaceInterpolations_in_fixed; [|exact Hk].
    intros m''. by apply interpolate_no_match, MatchString_no_percent.
Qed.

Lemma resolver_leaves_plain_values_witness :
  ReplaceInterpolations_in ["A"; "B"]
    (<["A" := "local"]> {[ "B" := "%%A%%" ]}) !! "A"
  = Some "local".
Proof.
  refine (proj2 (resolver_leaves_plain_values
                   (<["A" := "local"]> {[ "B" := "%%A%%" ]}) _ _)
            "A" "local" _ _).
  - exists ["A"; "B"]. split; [|reflexivity].
    apply (bool_decide_unpack _). vm_compute. exact I.
  - reflexivity.
  - reflexivity.
Defined.

(** X11. The resolver keeps the keys of the namespace, and rewrites every
    value exactly once: the value a key ends with is its original value
    rewritten against a namespace that holds, under every key, either the
    original value (the key is visited later) or the final one (it was
    visited before). *)
Theorem resolver_rewrites_each_value_once (m m' : paramMap) :
  ReplaceInterpolations m m' ->
  dom m' = dom m
  /\ (forall k v,
         m !! k = Some v ->
         exists mid : paramMap,
           m' !! k = Some (interpolate mid v)
           /\ mid !! k = Some v
           /\ (forall j, mid !! j = m !! j \/ mid !! j = m' !! j)).
Proof.
  intros (order & Horder & ->). split; [apply ReplaceInterpolations_in_dom|].
  intros k v Hk.
  assert (Hin : k ∈ order) by (apply (rangeOrder_elem m); eauto).
  apply list_elem_of_split in Hin as (earlier & later & ->).
  assert (Hnodup := proj1 Horder).
  exists (ReplaceInterpolations_in earlier m).
  apply NoDup_app in Hnodup as (Hearlier & Hdisj & Hrest).
  split; [by apply ReplaceInterpolations_in_visit; [apply Horder|]|].
  split.
  - rewrite ReplaceInterpolations_in_other; [exact Hk|].
    intros Hin. apply (Hdisj k Hin). by left.
  - intros j. destruct (decide (j ∈ earlier)) as [Hj|Hj].
    + right. rewrite ReplaceInterpolations_in_app.
      symmetry. apply ReplaceInterpolations_in_other. by apply Hdisj.
    + left. by apply ReplaceInterpolations_in_other.
Qed.

Lemma resolver_rewrites_each_value_once_witness :
  dom (ReplaceInterpolations_in ["A"; "B"]
         (<["A" := "%%B%%"]> {[ "B" := "x" ]}))
  = dom (<["A" := "%%B%%"]> ({[ "B" := "x" ]} : paramMap)).
Proof.
  refine (proj1 (resolver_rewrites_each_value_once
                   (<["A" := "%%B%%"]> {[ "B" := "x" ]}) _ _)).
  exists ["A"; "B"]. split; [|reflexivity].
  apply (bool_decide_unpack _). vm_compute. exact I.
Defined.

(** X12. The outcome of the resolver depends on the order in which the loop
    visits the keys, also without any cycle: with [A] naming [B] and [B]
    naming [C], [A] ends as the token of [C] when it is visited before [B],
    and as the value of [C] when it is visited after. *)
Theorem resolver_depends_on_iteration_order (x : string) :
  exists m1 m2 : paramMap,
    ReplaceInterpolations
      (<["A" := "%%B%%"]> (<["B" := "%%C%%"]> {[ "C" := x ]})) m1
    /\ ReplaceInterpolations
         (<["A" := "%%B%%"]> (<["B" := "%%C%%"]> {[ "C" := x ]})) m2
    /\ m1 !! "A" = Some "%%C%%"
    /\ m2 !! "A" = Some x.
Proof.
  set (m := <["A" := "%%B%%"]> (<["B" := "%%C%%"]> {[ "C" := x ]}) : paramMap).
  assert (HA : m !! "A" = Some "%%B%%") by reflexivity.
  assert (HB : m !! "B" = Some "%%C%%") by reflexivity.
  assert (HC : m !! "C" = Some x) by reflexivity.
  assert (Hdom : dom m = {["A"; "B"; "C"]}).
  { unfold m. rewrite !dom_insert_L, dom_singleton_L. set_solver. }
  assert (Htoken : forall (n : paramMap) name,
             strings.ContainsByte name newline = false ->
             strings.Trim name "%" = name ->
             interpolate n ("%%" +:+ name +:+ "%%") = default "" (n !! name)).
  { intros n name Hnl Htrim. by rewrite interpolate_token, Htrim. }
  exists (ReplaceInterpolations_in ["A"; "B"; "C"] m),
         (ReplaceInterpolations_in ["B"; "A"; "C"] m).
  split; [|split; [|split]].
  - exists ["A"; "B"; "C"]. split; [|reflexivity]. split.
    + apply (bool_decide_unpack _). vm_compute. exact I.
    + rewrite Hdom. simpl. set_solver.
  - exists ["B"; "A"; "C"]. split; [|reflexivity]. split.
    + apply (bool_decide_unpack _). vm_compute. exact I.
    + rewrite Hdom. simpl. set_solver.
  - rewrite ReplaceInterpolations_in_cons.
    rewrite ReplaceInterpolations_in_other
      by (apply (bool_decide_unpack _); vm_compute; exact I).
    rewrite (interpStep_visit m "A" _ HA).
    change "%%B%%" with ("%%" +:+ "B" +:+ "%%").
    rewrite Htoken by reflexivity. by rewrite HB.
  - do 2 rewrite ReplaceInterpolations_in_cons.
    rewrite ReplaceInterpolations_in_other
      by (apply (bool_decide_unpack _); vm_compute; exact I).
    assert (HB' : interpStep m "B" !! "B" = Some x).
    { rewrite (interpStep_visit m "B" _ HB).
      change "%%C%%" with ("%%" +:+ "C" +:+ "%%").
      rewrite Htoken by reflexivity. by rewrite HC. }
    assert (HA' : interpStep m "B" !! "A" = Some "%%B%%").
    { rewrite interpStep_other; [exact HA|discriminate]. }
    rewrite (interpStep_visit _ "A" _ HA').
    change "%%B%%" with ("%%" +:+ "B" +:+ "%%").
    rewrite Htoken by reflexivity. by rewrite HB'.
Qed.

(** X13. Whatever order the loop takes, the flattened list holds exactly
    one line [k=v] for every entry of the namespace: it is a permutation of
    the lines of the entries, and as long as the namespace has keys. *)
Theorem flattened_list_has_one_line_per_entry (m : paramMap)
    (lines : list string) :
  StringArray m lines ->
  lines ≡ₚ entryLine <$> map_to_list m
  /\ length lines = size m
  /\ (forall k v, m !! k = Some v -> (k +:+ "=" +:+ v) ∈ lines).
Proof.
  intros (order & Horder & ->).
  assert (Hperm := StringArray_in_map_to_list m order Horder).
  split; [exact Hperm|]. split.
  - by rewrite Hperm, length_fmap, length_map_to_list.
  - intros k v Hk. rewrite Hperm.
    apply (list_elem_of_fmap_2 entryLine _ (k, v)).
    by apply elem_of_map_to_list.
Qed.

Lemma flattened_list_has_one_line_per_entry_witness :
  length (StringArray_in ["B"; "A"] (<["A" := "1"]> {[ "B" := "2" ]})) = 2%nat.
Proof.
  refine (proj1 (proj2 (flattened_list_has_one_line_per_entry
                          (<["A" := "1"]> {[ "B" := "2" ]}) _ _))).
  exists ["B"; "A"]. split; [|reflexivity].
  apply (bool_decide_unpack _). vm_compute. exact I.
Defined.

(** ** The fetcher, whatever the store answers *)

(** X14. Whatever the store answers and however long the fetcher runs, it
    sends every request after a sleep of 100 ms, always for the path it was
    given (with page size 10, not recursive, decrypting); it sends at most
    one request per call, the first with the cursor it was given and every
    later one with the cursor that the answer before it carried. *)
Theorem fetcher_paces_every_request (fuel : nat)
    (params : getParametersInput) (itr : Z) (tr : list event) :
  exists toks,
    (getParameters fuel params itr tr).2 = tr ++ fetchTrace (Path params) toks
    /\ (length toks <= fuel)%nat
    /\ (forall tok, head toks = Some tok -> tok = NextToken params)
    /\ (forall i tok next,
           toks !! i = Some tok -> toks !! S i = Some next ->
           exists out,
             Client params (request (Path params) tok) = inl out
             /\ resp_NextToken out = next).
Proof.
  revert params itr tr. induction fuel as [|fuel IH]; intros params itr tr.
  - exists []. simpl. rewrite app_nil_r. repeat split; [lia|done|done].
  - destruct params as [client path tok fetched].
    cbn [Path NextToken Client].
    destruct (negb (itr =? 0) && isNil tok) eqn:Htest.
    + exists []. cbn [getParameters NextToken]. rewrite Htest. simpl.
      rewrite app_nil_r. repeat split; [lia|done|done].
    + rewrite getParameters_step by exact Htest.
      destruct (client (request path tok)) as [out|err] eqn:Hanswer.
      * destruct (IH {| Client := client; Path := path;
                        NextToken := resp_NextToken out;
                        FetchedParams := fetched ++ Parameters out |}
                    (int_add itr 1) (tr ++ fetchTrace path [tok]))
          as (toks & Htrace & Hlen & Hhead & Hchain).
        cbn [Path NextToken Client] in Htrace, Hhead, Hchain.
        exists (tok :: toks). rewrite Htrace, fetchTrace_cons, <- app_assoc.
        split; [reflexivity|]. split; [simpl; lia|]. split.
        -- by intros ? [= <-].
        -- intros [|i] tok' next Htok Hnext.
           ++ injection Htok as <-. exists out. split; [exact Hanswer|].
              symmetry. apply Hhead. by destruct toks; simplify_eq/=.
           ++ by apply (Hchain i).
      * exists [tok]. split; [reflexivity|]. split; [simpl; lia|]. split.
        -- by intros ? [= <-].
        -- by intros [|i] ? ? ? ?.
Qed.

(** ** The runs with a command *)

Lemma run_child_run w name argv env tr :
  run_child w (name :: argv) env tr
  = match child w name argv env with
    | (Some err, _) =>
        (Exit 1,
         tr ++ [Start name argv env;
                Stderr ("Error while starting command: " +:+ " " +:+ err)])
    | (None, Some err) =>
        (Exit 1,
         tr ++ [Start name argv env; Wait;
                Stderr ("Command finished with err: " +:+ " " +:+ err)])
    | (None, None) => (Ret tt, tr ++ [Start name argv env; Wait])
    end.
Proof.
  unfold run_child, log_Fatalln2, emit, os_Exit, mbind, IO_bind, mret, IO_ret.
  destruct (child w name argv env) as [[err|] [err'|]];
    by rewrite <- ?app_assoc.
Qed.

Lemma bareTail_run w m name argv tr :
  bareTail w m (name :: argv) tr
  = (Ret tt,
     tr ++ [Start name argv (StringArray_in (rangeStringArray w m) m); Wait]).
Proof.
  unfold bareTail, emit, mbind, IO_bind, mret, IO_ret.
  by rewrite <- app_assoc.
Qed.

(** X15. With a command among the arguments and the fetches done, the two
    later revisions start the command with the flattened namespace as its
    environment. A command that cannot be started ends the run with status
    1 and its own diagnostic, without waiting; a command that fails ends it
    with status 1 and another diagnostic; otherwise [main] returns. The
    fuller revision does so when none of its options is among the
    arguments. *)
Theorem command_run_reports_the_child
    (w : World) (seed : paramMap) (fuel : nat) (prog name : string)
    (argv : list string)
    (tr1 tr2 : list event) (params1 params2 : list ssm_Parameter)
    (n1 n2 : nat) :
  getOSEnv (os_Environ w) = Some seed ->
  os_Args w = prog :: name :: argv ->
  scope (svc w) (nonEmpty (appEnvOf w)) (sharedPath (appEnvOf w))
    tr1 params1 None n1 ->
  scope (svc w) (nonEmpty (appNameOf w)) (appPath (appEnvOf w) (appNameOf w))
    tr2 params2 None n2 ->
  (n1 <= fuel)%nat -> (n2 <= fuel)%nat ->
  let final := resolved w seed (params1 ++ params2) in
  let env := StringArray_in (rangeStringArray w final) final in
  let outcome :=
    match child w name argv env with
    | (Some err, _) =>
        (Exit 1,
         (tr1 ++ tr2)
         ++ [Start name argv env;
             Stderr ("Error while starting command: " +:+ " " +:+ err)])
    | (None, Some err) =>
        (Exit 1,
         (tr1 ++ tr2)
         ++ [Start name argv env; Wait;
             Stderr ("Command finished with err: " +:+ " " +:+ err)])
    | (None, None) => (Ret tt, (tr1 ++ tr2) ++ [Start name argv env; Wait])
    end in
  Fatal.main fuel w [] = outcome
  /\ (contains (name :: argv) "-h" = false ->
      contains (name :: argv) "--help" = false ->
      contains (name :: argv) "-O" = false ->
      Fuller.main fuel w [] = outcome).
Proof.
  intros Hseed Hargs Hshared Happ Hfuel1 Hfuel2 final env outcome.
  rewrite Fatal_main_driver, Fuller_main_driver.
  rewrite !(driver_ok _ _ _ w seed fuel Hseed _ _ _ _ _ _ prog (name :: argv)
              Hshared Happ Hfuel1 Hfuel2 Hargs).
  fold final. split.
  - unfold fatalTail. cbn [length Nat.eqb]. fold env. apply run_child_run.
  - intros Hh Hhelp HO. unfold fullerTail. cbn [length Nat.eqb orb].
    rewrite Hh, Hhelp, HO. cbn [orb]. fold env. apply run_child_run.
Qed.

Lemma command_run_reports_the_child_witness :
  Fatal.main 2
    {| os_Environ := ["APP_ENV=prod"; "FOO=local"];
       os_Args := ["ssm-loader"; "missing-command"];
       svc := pagedStore oneParam;
       rangeInterpolations := fun m => (map_to_list m).*1;
       rangeStringArray := fun _ => ["APP_ENV"; "FOO"];
       child := fun _ _ _ => (Some "executable file not found", None) |} []
  = (Exit 1,
     (fetchTrace "/prod/" [None] ++ [])
     ++ [Start "missing-command" [] ["APP_ENV=prod"; "FOO=local"];
         Stderr "Error while starting command:  executable file not found"]).
Proof.
  refine (proj1 (command_run_reports_the_child
    {| os_Environ := ["APP_ENV=prod"; "FOO=local"];
       os_Args := ["ssm-loader"; "missing-command"];
       svc := pagedStore oneParam;
       rangeInterpolations := fun m => (map_to_list m).*1;
       rangeStringArray := fun _ => ["APP_ENV"; "FOO"];
       child := fun _ _ _ => (Some "executable file not found", None) |}
    _ 2 "ssm-loader" "missing-command" [] _ _ _ _ _ _
    (example_seed ["missing-command"] (pagedStore oneParam)) eq_refl
    (example_shared_scope ["missing-command"])
    (example_app_scope ["missing-command"] (pagedStore oneParam)) _ _));
    lia.
Defined.

(** X16. The oldest revision starts the command and awaits it, and then
    returns whatever became of the command: a command that cannot be
    started or that fails leaves no trace in the exit status. *)
Theorem Bare_run_ignores_the_child
    (w : World) (seed : paramMap) (fuel : nat) (prog name : string)
    (argv : list string)
    (tr1 tr2 : list event) (params1 params2 : list ssm_Parameter)
    (n1 n2 : nat) :
  getOSEnv (os_Environ w) = Some seed ->
  os_Args w = prog :: name :: argv ->
  scope (svc w) (nonEmpty (appEnvOf w)) (sharedPath (appEnvOf w))
    tr1 params1 None n1 ->
  scope (svc w) (nonEmpty (appNameOf w)) (appPath (appEnvOf w) (appNameOf w))
    tr2 params2 None n2 ->
  (n1 <= fuel)%nat -> (n2 <= fuel)%nat ->
  let final := resolved w seed (params1 ++ params2) in
  let env := StringArray_in (rangeStringArray w final) final in
  Bare.main fuel w [] = (Ret tt, (tr1 ++ tr2) ++ [Start name argv env; Wait])
  /\ exitStatus (Bare.main fuel w []).1 = Some 0.
Proof.
  intros Hseed Hargs Hshared Happ Hfuel1 Hfuel2 final env.
  rewrite Bare_main_driver.
  rewrite !(driver_ok _ _ _ w seed fuel Hseed _ _ _ _ _ _ prog (name :: argv)
              Hshared Happ Hfuel1 Hfuel2 Hargs).
  fold final. by rewrite bareTail_run.
Qed.

Lemma Bare_run_ignores_the_child_witness :
  exitStatus
    (Bare.main 2
       {| os_Environ := ["APP_ENV=prod"; "FOO=local"];
          os_Args := ["ssm-loader"; "false"];
          svc := pagedStore oneParam;
          rangeInterpolations := fun m => (map_to_list m).*1;
          rangeStringArray := fun _ => ["APP_ENV"; "FOO"];
          child := fun _ _ _ => (None, Some "exit status 1") |} []).1
  = Some 0.
Proof.
  refine (proj2 (Bare_run_ignores_the_child
    {| os_Environ := ["APP_ENV=prod"; "FOO=local"];
       os_Args := ["ssm-loader"; "false"];
       svc := pagedStore oneParam;
       rangeInterpolations := fun m => (map_to_list m).*1;
       rangeStringArray := fun _ => ["APP_ENV"; "FOO"];
       child := fun _ _ _ => (None, Some "exit status 1") |}
    _ 2 "ssm-loader" "false" [] _ _ _ _ _ _
    (example_seed ["false"] (pagedStore oneParam)) eq_refl
    (example_shared_scope ["false"])
    (example_app_scope ["false"] (pagedStore oneParam)) _ _));
    lia.
Defined.

(** X17. In the fuller revision, with [-O] anywhere among the arguments and
    neither [-h] nor [--help], the fetches are made, the lines of the
    flattened namespace are printed to standard output, and the run ends
    with status 0; no command is started, even when one is given. *)
Theorem output_flag_prints_the_namespace
    (w : World) (seed : paramMap) (fuel : nat) (prog : string)
    (args : list string)
    (tr1 tr2 : list event) (params1 params2 : list ssm_Parameter)
    (n1 n2 : nat) :
  getOSEnv (os_Environ w) = Some seed ->
  os_Args w = prog :: args ->
  contains args "-O" = true ->
  contains args "-h" = false ->
  contains args "--help" = false ->
  scope (svc w) (nonEmpty (appEnvOf w)) (sharedPath (appEnvOf w))
    tr1 params1 None n1 ->
  scope (svc w) (nonEmpty (appNameOf w)) (appPath (appEnvOf w) (appNameOf w))
    tr2 params2 None n2 ->
  (n1 <= fuel)%nat -> (n2 <= fuel)%nat ->
  let final := resolved w seed (params1 ++ params2) in
  Fuller.main fuel w []
  = (Exit 0,
     (tr1 ++ tr2)
     ++ (Stdout <$> StringArray_in (rangeStringArray w final) final)).
Proof.
  intros Hseed Hargs HO Hh Hhelp Hshared Happ Hfuel1 Hfuel2 final.
  rewrite Fuller_main_driver.
  rewrite (driver_ok _ _ _ w seed fuel Hseed _ _ _ _ _ _ prog args
             Hshared Happ Hfuel1 Hfuel2 Hargs).
  fold final. unfold fullerTail.
  destruct args as [|arg args]; [discriminate|].
  cbn [length Nat.eqb orb]. rewrite Hh, Hhelp, HO. cbn [orb].
  by erewrite bind_Ret by apply printAll_run.
Qed.

Lemma output_flag_prints_the_namespace_witness :
  Fuller.main 2
    {| os_Environ := ["APP_ENV=prod"; "FOO=local"];
       os_Args := ["ssm-loader"; "env"; "-O"];
       svc := pagedStore oneParam;
       rangeInterpolations := fun m => (map_to_list m).*1;
       rangeStringArray := fun _ => ["APP_ENV"; "FOO"];
       child := fun _ _ _ => (None, None) |} []
  = (Exit 0,
     (fetchTrace "/prod/" [None] ++ [])
     ++ [Stdout "APP_ENV=prod"; Stdout "FOO=local"]).
Proof.
  refine (output_flag_prints_the_namespace
    {| os_Environ := ["APP_ENV=prod"; "FOO=local"];
       os_Args := ["ssm-loader"; "env"; "-O"];
       svc := pagedStore oneParam;
       rangeInterpolations := fun m => (map_to_list m).*1;
       rangeStringArray := fun _ => ["APP_ENV"; "FOO"];
       child := fun _ _ _ => (None, None) |}
    _ 2 "ssm-loader" ["env"; "-O"] _ _ _ _ _ _
    (example_seed ["env"; "-O"] (pagedStore oneParam)) eq_refl
    eq_refl eq_refl eq_refl
    (example_shared_scope ["env"; "-O"])
    (example_app_scope ["env"; "-O"] (pagedStore oneParam)) _ _);
    lia.
Defined.

(** ** From the environment of the process to that of the command *)

Section EndToEnd.

Implicit Types (environ : list string) (seed final : paramMap).

Lemma StringArray_in_elem order (m : paramMap) k v :
  k ∈ order -> m !! k = Some v -> entryLine (k, v) ∈ StringArray_in order m.
Proof.
  intros Hin Hk. unfold StringArray_in. apply list_elem_of_omap.
  exists k. split; [exact Hin|]. by rewrite Hk.
Qed.

(** An entry of a well-formed environment sits in the seeded namespace. *)
Lemma getOSEnv_entry environ seed e :
  Forall (fun e => strings.ContainsByte e "=" = true) environ ->
  NoDup (envName <$> environ) ->
  getOSEnv environ = Some seed ->
  e ∈ environ ->
  seed !! envName e = Some (envValue e).
Proof.
  intros Hwf Hnames Hseed He.
  destruct (getOSEnv_pairs environ Hwf Hnames) as (seed' & Hseed' & Hperm).
  assert (seed' = seed) as -> by congruence.
  apply elem_of_map_to_list. rewrite Hperm.
  by apply (list_elem_of_fmap_2 (fun e => (envName e, envValue e))).
Qed.

Lemma environment_survives environ seed params order1 order2 :
  Forall (fun e => strings.ContainsByte e "=" = true) environ ->
  NoDup (envName <$> environ) ->
  Forall (fun e => MatchString paramInterpolation (envValue e) = false)
    environ ->
  getOSEnv environ = Some seed ->
  rangeOrder (ReplaceInterpolations_in order1 (AddParams seed params)) order2 ->
  forall e, e ∈ environ ->
    e ∈ StringArray_in order2
          (ReplaceInterpolations_in order1 (AddParams seed params)).
Proof.
  intros Hwf Hnames Hplain Hseed Horder2 e He.
  assert (Hentry := getOSEnv_entry environ seed e Hwf Hnames Hseed He).
  assert (He_wf : strings.ContainsByte e "=" = true)
    by (by apply (proj1 (Forall_forall _ _) Hwf)).
  assert (He_plain : MatchString paramInterpolation (envValue e) = false)
    by (by apply (proj1 (Forall_forall _ _) Hplain)).
  assert (Hfinal : ReplaceInterpolations_in order1 (AddParams seed params)
                     !! envName e = Some (envValue e)).
  { apply ReplaceInterpolations_in_fixed; [|by apply AddParams_present].
    intros m'. by apply interpolate_no_match. }
  rewrite <- (entryLine_split e He_wf).
  apply StringArray_in_elem; [|exact Hfinal].
  apply (rangeOrder_elem _ _ _ Horder2). eauto.
Qed.

End EndToEnd.

Section EndToEndRuns.

Implicit Types (environ : list string) (seed : paramMap).

Lemma seed_values environ seed k v :
  Forall (fun e => strings.ContainsByte e "=" = true) environ ->
  NoDup (envName <$> environ) ->
  getOSEnv environ = Some seed ->
  seed !! k = Some v ->
  exists e, e ∈ environ /\ k = envName e /\ v = envValue e.
Proof.
  intros Hwf Hnames Hseed Hk.
  destruct (getOSEnv_pairs environ Hwf Hnames) as (seed' & Hseed' & Hperm).
  assert (seed' = seed) as -> by congruence.
  apply elem_of_map_to_list in Hk. rewrite Hperm in Hk.
  apply list_elem_of_fmap in Hk as (e & [= -> ->] & He). eauto.
Qed.

Lemma seed_flattens_to_environment environ seed order :
  Forall (fun e => strings.ContainsByte e "=" = true) environ ->
  NoDup (envName <$> environ) ->
  getOSEnv environ = Some seed ->
  rangeOrder seed order ->
  StringArray_in order seed ≡ₚ environ.
Proof.
  intros Hwf Hnames Hseed Horder.
  destruct (getOSEnv_pairs environ Hwf Hnames) as (seed' & Hseed' & Hperm).
  assert (seed' = seed) as -> by congruence.
  rewrite (StringArray_in_map_to_list seed order Horder), Hperm.
  apply reflexive_eq. clear -Hwf.
  induction Hwf as [|e environ He _ IH]; [reflexivity|].
  rewrite !fmap_cons, IH. f_equal. by apply entryLine_split.
Qed.

End EndToEndRuns.

(** X18. From the environment of the process to that of the command: when
    the environment is well formed (every entry holds an equals sign, no
    name twice) and none of its values holds a match of the pattern, the
    command is started with an environment that holds every entry of the
    process environment unchanged, whatever the store returned; with no
    scope configured it is the process environment, up to order. *)
Theorem command_sees_the_environment
    (w : World) (seed : paramMap) (fuel : nat) (prog name : string)
    (argv : list string)
    (tr1 tr2 : list event) (params1 params2 : list ssm_Parameter)
    (n1 n2 : nat) :
  Forall (fun e => strings.ContainsByte e "=" = true) (os_Environ w) ->
  NoDup (envName <$> os_Environ w) ->
  Forall (fun e => MatchString paramInterpolation (envValue e) = false)
    (os_Environ w) ->
  getOSEnv (os_Environ w) = Some seed ->
  os_Args w = prog :: name :: argv ->
  scope (svc w) (nonEmpty (appEnvOf w)) (sharedPath (appEnvOf w))
    tr1 params1 None n1 ->
  scope (svc w) (nonEmpty (appNameOf w)) (appPath (appEnvOf w) (appNameOf w))
    tr2 params2 None n2 ->
  (n1 <= fuel)%nat -> (n2 <= fuel)%nat ->
  rangeOrder (resolved w seed (params1 ++ params2))
    (rangeStringArray w (resolved w seed (params1 ++ params2))) ->
  exists env,
    Bare.main fuel w [] = (Ret tt, (tr1 ++ tr2) ++ [Start name argv env; Wait])
    /\ (exists rest,
           (Fatal.main fuel w []).2
           = (tr1 ++ tr2) ++ Start name argv env :: rest)
    /\ (forall e, e ∈ os_Environ w -> e ∈ env)
    /\ (appEnvOf w = "" -> appNameOf w = "" -> env ≡ₚ os_Environ w).
Proof.
  intros Hwf Hnames Hplain Hseed Hargs Hshared Happ Hfuel1 Hfuel2 Horder.
  set (final := resolved w seed (params1 ++ params2)) in *.
  exists (StringArray_in (rangeStringArray w final) final).
  rewrite Bare_main_driver, Fatal_main_driver.
  rewrite !(driver_ok _ _ _ w seed fuel Hseed _ _ _ _ _ _ prog (name :: argv)
              Hshared Happ Hfuel1 Hfuel2 Hargs).
  fold final. split; [by rewrite bareTail_run|]. split; [|split].
  - unfold fatalTail. cbn [length Nat.eqb]. rewrite run_child_run.
    destruct (child w name argv _) as [[err|] [err'|]]; simpl; eauto.
  - intros e He.
    by apply (environment_survives (os_Environ w) seed (params1 ++ params2)).
  - intros Henv Hname.
    apply nonEmpty_false in Henv, Hname. rewrite Henv in Hshared.
    rewrite Hname in Happ.
    destruct (scope_skipped_inv _ _ _ _ _ _ _ Hshared eq_refl) as (_ & -> & _).
    destruct (scope_skipped_inv _ _ _ _ _ _ _ Happ eq_refl) as (_ & -> & _).
    assert (Hsame : final = seed).
    { apply map_eq. intros k. unfold final, resolved.
      change (AddParams seed ([] ++ [])) with seed.
      destruct (seed !! k) as [v|] eqn:Hk.
      - apply ReplaceInterpolations_in_fixed; [|exact Hk].
        intros m'. apply interpolate_no_match.
        destruct (seed_values _ _ _ _ Hwf Hnames Hseed Hk) as (e & He & _ & ->).
        by apply (proj1 (Forall_forall _ _) Hplain).
      - by apply ReplaceInterpolations_in_None. }
    rewrite Hsame in Horder |- *.
    by apply (seed_flattens_to_environment (os_Environ w)).
Qed.

Lemma command_sees_the_environment_witness :
  exists env,
    Bare.main 2
      {| os_Environ := ["APP_ENV=prod"; "FOO=local"];
         os_Args := ["ssm-loader"; "env"];
         svc := pagedStore oneParam;
         rangeInterpolations := fun m => (map_to_list m).*1;
         rangeStringArray := fun _ => ["APP_ENV"; "FOO"];
         child := fun _ _ _ => (None, None) |} []
    = (Ret tt,
       (fetchTrace "/prod/" [None] ++ []) ++ [Start "env" [] env; Wait])
    /\ "FOO=local" ∈ env.
Proof.
  destruct (command_sees_the_environment
    {| os_Environ := ["APP_ENV=prod"; "FOO=local"];
       os_Args := ["ssm-loader"; "env"];
       svc := pagedStore oneParam;
       rangeInterpolations := fun m => (map_to_list m).*1;
       rangeStringArray := fun _ => ["APP_ENV"; "FOO"];
       child := fun _ _ _ => (None, None) |}
    (<["FOO" := "local"]> {[ "APP_ENV" := "prod" ]})
    2 "ssm-loader" "env" []
    (fetchTrace "/prod/" [None]) [] oneParam [] 2 0)
    as (env & Hrun & _ & Hall & _).
  - repeat constructor.
  - apply (bool_decide_unpack _). vm_compute. exact I.
  - repeat constructor.
  - reflexivity.
  - reflexivity.
  - exact (example_shared_scope ["env"]).
  - exact (example_app_scope ["env"] (pagedStore oneParam)).
  - lia.
  - lia.
  - apply (bool_decide_unpack _). vm_compute. exact I.
  - exists env. split; [exact Hrun|]. apply Hall. right. left.
Defined.

(** X19. When no value of the environment or of the fetched parameters
    holds a match of the pattern, the namespace that [main] ends up with is
    the layered union of the three sources, whatever order the resolver
    takes: the environment over the shared scope over the app scope. *)
Theorem resolved_namespace_is_layered
    (w : World) (seed : paramMap) (sharedParams appParams : list ssm_Parameter) :
  (forall k v, seed !! k = Some v ->
               MatchString paramInterpolation v = false) ->
  Forall (fun param => MatchString paramInterpolation (Value param) = false)
    (sharedParams ++ appParams) ->
  resolved w seed (sharedParams ++ appParams)
  = seed ∪ batchMap sharedParams ∪ batchMap appParams.
Proof.
  intros Hseed Hparams. unfold resolved.
  set (merged := AddParams seed (sharedParams ++ appParams)).
  assert (Hmerged : merged = seed ∪ batchMap sharedParams ∪ batchMap appParams).
  { unfold merged. by rewrite AddParams_union, batchMap_app, (assoc_L (∪)). }
  rewrite <- Hmerged. apply map_eq. intros k.
  destruct (merged !! k) as [v|] eqn:Hk;
    [|by apply ReplaceInterpolations_in_None].
  apply ReplaceInterpolations_in_fixed; [|exact Hk].
  intros m'. apply interpolate_no_match.
  unfold merged in Hk. rewrite AddParams_union in Hk.
  apply lookup_union_Some_raw in Hk as [Hk|[_ Hk]]; [by eapply Hseed|].
  apply elem_of_list_to_map_2, list_elem_of_fmap in Hk
    as (param & [= -> ->] & Hin).
  by apply (proj1 (Forall_forall _ _) Hparams).
Qed.

Lemma resolved_namespace_is_layered_witness :
  resolved (exampleWorld ["env"] (pagedStore oneParam))
    {[ "FOO" := "local" ]}
    ([ {| Name := "/prod/FOO"; Value := "remote" |};
       {| Name := "/prod/BAR"; Value := "shared" |} ]
     ++ [ {| Name := "/prod/web/BAR"; Value := "app" |} ])
  = {[ "FOO" := "local" ]}
    ∪ batchMap [ {| Name := "/prod/FOO"; Value := "remote" |};
                 {| Name := "/prod/BAR"; Value := "shared" |} ]
    ∪ batchMap [ {| Name := "/prod/web/BAR"; Value := "app" |} ].
Proof.
  apply (resolved_namespace_is_layered
           (exampleWorld ["env"] (pagedStore oneParam))
           {[ "FOO" := "local" ]}).
  - intros k v Hk. apply lookup_singleton_Some in Hk as [_ <-]. reflexivity.
  - repeat constructor.
Defined.
